(** * Taby controller: admission, ports, reclamation

    A shallow embedding of [taby_controller.py] (class [TabyController]):
    the queue of pending URLs, the list of running instances, the SQLite
    store behind both, and the operations [add_to_queue],
    [remove_from_queue], [start_taby], [start_next], [stop_instance] and
    [clean_instances], with [load_playlist], the [stop-all] command and
    the loop of [main] that fills the free slots.  The entry points of
    the window ([gui.py]) that drive the controller are in [Module Gui].
    The older stand-alone script [taby-controller.py] is embedded in
    [Module Legacy], and the way it reads its command line in
    [Module LegacyArgs], after the definitions of the main controller.

    Python integers are [Z], strings are [string], lists are [list].  The
    outside world (sockets, [subprocess], [os.kill], a database that may
    refuse a write) is an explicit argument of every operation that
    consults it, and every call made to a socket or a process is recorded
    in the list of [effect]s the operation returns. *)

From Stdlib Require Import ZArith String List Lia.
From stdpp Require Import gmap base list strings pretty sorting numbers.

Local Open Scope Z_scope.

(** ** Settings, queue items, instances *)

(** [self.settings]: the ten keys copied from the parsed arguments. *)
Record settings := Settings {
  script : string;
  rtsp_base_port : Z;
  http_base_port : Z;
  port_increment : Z;
  max_concurrent : Z;
  log_dir : string;
  db_file : string;
  audio_quality : string;
  stream_bitrate : Z;
  stream_codec : string
}.

(** An entry of [self.queue] and a row of table [queue]: [{"id", "url"}]. *)
Record queue_item := QueueItem {
  q_id : Z;
  q_url : string
}.

(** An entry of [self.instances] and a row of table [instances]. *)
Record instance := MkInstance {
  inst_id : Z;
  inst_url : string;
  rtsp_port : Z;
  http_port : Z;
  sink_name : string;
  source_name : string;
  pid : Z
}.

Global Instance queue_item_eq_dec : EqDecision queue_item.
Proof. solve_decision. Defined.

Global Instance instance_eq_dec : EqDecision instance.
Proof. solve_decision. Defined.

(** ** The SQLite store

    Both tables have an [INTEGER PRIMARY KEY]; SQLite keeps such a table
    as a B-tree on that key, so a table is the list of its rows in key
    order.  [added_time] and [started_time] are written but never read
    and are left out.

    One statement can fail where the controller catches the failure and
    carries on: the INSERT of a started instance, inside the [try] of
    [start_taby].  Its failure is part of the model ([insert_instance]).
    An exception of any other statement is not caught by the method
    that runs it: it ends that method, and the definitions below describe
    the calls that come back. *)

Section Table.
Context {A : Type} (key : A → Z).

(** The position of a new row is the one its key gives it. *)
Fixpoint insert_row (r : A) (t : list A) : list A :=
  match t with
  | [] => [r]
  | x :: t' =>
      if decide (key r < key x) then r :: x :: t' else x :: insert_row r t'
  end.

(** [DELETE FROM t WHERE id = k]. *)
Definition delete_row (k : Z) (t : list A) : list A :=
  filter (λ x, key x ≠ k) t.

Definition has_key (k : Z) (t : list A) : bool :=
  bool_decide (k ∈ key <$> t).
End Table.

(** Python's [max(l, default=d)]. *)
Definition py_max (l : list Z) (d : Z) : Z :=
  match l with
  | [] => d
  | x :: l' => foldl Z.max x l'
  end.

Record store := Store {
  queue_table : list queue_item;
  instances_table : list instance
}.

(** [INSERT INTO queue (url) VALUES (?)]: SQLite picks the row id, one
    more than the largest in use and 1 in an empty table; [db_op] hands
    it back as [lastrowid]. *)
Definition insert_queue (url : string) (db : store) : Z * store :=
  let rowid := py_max (q_id <$> queue_table db) 0 + 1 in
  (rowid,
   {| queue_table := insert_row q_id (QueueItem rowid url) (queue_table db);
      instances_table := instances_table db |}).

(** [DELETE FROM queue WHERE id = ?]. *)
Definition delete_queue (queue_id : Z) (db : store) : store :=
  {| queue_table := delete_row q_id queue_id (queue_table db);
     instances_table := instances_table db |}.

(** [INSERT INTO instances VALUES (?,?,?,?,?,?,?,CURRENT_TIMESTAMP)]: the
    id is given.  [db_op] raises, and nothing is written, when a row with
    that id is already there (the primary key is unique) and when the
    database cannot be written at that moment ([writable] is [false]: the
    file is locked by another connection, the disk is full, the file is
    read-only): [None]. *)
Definition insert_instance (writable : bool) (r : instance) (db : store)
  : option store :=
  if writable then
    if has_key inst_id (inst_id r) (instances_table db) then None
    else Some {| queue_table := queue_table db;
                 instances_table := insert_row inst_id r (instances_table db) |}
  else None.

(** [DELETE FROM instances WHERE id = ?]. *)
Definition delete_instance (instance_id : Z) (db : store) : store :=
  {| queue_table := queue_table db;
     instances_table := delete_row inst_id instance_id (instances_table db) |}.

(** [SELECT id, url FROM queue ORDER BY id]. *)
Definition load_queue (db : store) : list queue_item := queue_table db.

(** [SELECT ... FROM instances]: a scan of the table. *)
Definition load_instances (db : store) : list instance := instances_table db.

(** ** The controller *)

Record controller := Controller {
  ctl_settings : settings;
  queue : list queue_item;
  instances : list instance;
  next_instance_id : Z;
  db : store
}.

(** ** The outside world *)

Inductive signal := SIGTERM | SIG0.

(** What [os.kill] does: returns, raises [ProcessLookupError], or raises
    something else. *)
Inductive kill_result := KillOk | KillNoProcess | KillFailed.

(** What one call of [start_taby] meets: the result of [connect_ex] on
    each port, what [yt-dlp --get-title] printed (stripped; [None] when it
    raised), the pid [Popen] returned ([None] when opening the log file
    or [Popen] raised), what became of the script by the time
    [start_taby] returns ([Some n]: it has exited with status [n];
    [None]: it runs), and whether the database can be written when the
    row of the instance is inserted.  The controller never calls [poll]
    or [wait] on the process, so nothing below reads [exit_status]. *)
Record spawn_world := SpawnWorld {
  connect_ex : Z → Z;
  get_title : option string;
  popen : option Z;
  exit_status : option Z;
  db_writable : bool
}.

Inductive effect :=
  | Connect (port : Z)
  | TitleLookup (url : string)
  | Launch (argv : list string)
  | Kill (p : Z) (sig : signal)
  | RenameDevice (device description : string) (is_source : bool).

(** ** Queue operations *)

Inductive add_result := InvalidUrl | Added (queue_id : Z).

(** [url.startswith(('http://', 'https://'))]. *)
Definition valid_url (url : string) : bool :=
  String.prefix "http://" url || String.prefix "https://" url.

Definition add_to_queue (url : string) (c : controller)
  : add_result * controller :=
  if valid_url url then
    let '(queue_id, db') := insert_queue url (db c) in
    (Added queue_id,
     {| ctl_settings := ctl_settings c;
        queue := queue c ++ [QueueItem queue_id url];
        instances := instances c;
        next_instance_id := next_instance_id c;
        db := db' |})
  else (InvalidUrl, c).

Definition remove_from_queue (queue_id : Z) (c : controller) : controller :=
  {| ctl_settings := ctl_settings c;
     queue := filter (λ item, q_id item ≠ queue_id) (queue c);
     instances := instances c;
     next_instance_id := next_instance_id c;
     db := delete_queue queue_id (db c) |}.

(** ** Starting an instance *)

(** [check_port_availability]: [connect_ex(('localhost', port)) != 0].
    A port outside 0..65535 makes [connect_ex] raise: [None]. *)
Definition check_port_availability (w : spawn_world) (port : Z)
  : option bool :=
  if decide (0 ≤ port ≤ 65535) then Some (negb (connect_ex w port =? 0))
  else None.

(** The title shown on the audio devices: at most 30 characters, and a
    placeholder when the lookup raised. *)
Definition display_title (w : spawn_world) (instance_id : Z) : string :=
  match get_title w with
  | Some t =>
      if decide (30 < String.length t)%nat
      then String.substring 0 27 t +:+ "..."
      else t
  | None => "YouTube Stream " +:+ pretty instance_id
  end.

Definition launch_argv (s : settings) (url : string) (rtsp http : Z)
    (sink source : string) : list string :=
  [script s; url;
   "--rtsp-port"; pretty rtsp;
   "--http-port"; pretty http;
   "--sink-name"; sink;
   "--source-name"; source;
   "--audio-quality"; audio_quality s;
   "--stream-bitrate"; pretty (stream_bitrate s);
   "--stream-codec"; stream_codec s]%string.

Inductive start_result :=
  | RtspPortInUse (port : Z)
  | HttpPortInUse (port : Z)
  | StartError
  | TabyStarted.

(** The value [start_taby] returns. *)
Definition start_ok (r : start_result) : bool :=
  match r with TabyStarted => true | _ => false end.

Definition port_of (base instance_id increment : Z) : Z :=
  base + instance_id * increment.

(** The record of a started instance: the row written to the store and
    the entry appended to [self.instances]. *)
Definition new_instance (s : settings) (url : string) (instance_id p : Z)
  : instance :=
  {| inst_id := instance_id;
     inst_url := url;
     rtsp_port := port_of (rtsp_base_port s) instance_id (port_increment s);
     http_port := port_of (http_base_port s) instance_id (port_increment s);
     sink_name := "ts_sink_" +:+ pretty instance_id;
     source_name := "TS_Bot_" +:+ pretty instance_id;
     pid := p |}.

Definition start_taby (w : spawn_world) (url : string) (instance_id : Z)
    (c : controller) : start_result * list effect * controller :=
  let s := ctl_settings c in
  let rtsp := port_of (rtsp_base_port s) instance_id (port_increment s) in
  let http := port_of (http_base_port s) instance_id (port_increment s) in
  match check_port_availability w rtsp with
  | None => (StartError, [], c)
  | Some false => (RtspPortInUse rtsp, [Connect rtsp], c)
  | Some true =>
  match check_port_availability w http with
  | None => (StartError, [Connect rtsp], c)
  | Some false => (HttpPortInUse http, [Connect rtsp; Connect http], c)
  | Some true =>
  let sink := "ts_sink_" +:+ pretty instance_id in
  let source := "TS_Bot_" +:+ pretty instance_id in
  let title := display_title w instance_id in
  let probes := [Connect rtsp; Connect http; TitleLookup url] in
  match popen w with
  | None => (StartError, probes, c)
  | Some p =>
  let argv := launch_argv s url rtsp http sink source in
  let row := new_instance s url instance_id p in
  match insert_instance (db_writable w) row (db c) with
  | None => (StartError, probes ++ [Launch argv], c)
  | Some db' =>
      (TabyStarted,
       probes ++ [Launch argv;
                  RenameDevice sink title false;
                  RenameDevice (sink +:+ ".monitor")
                               ("Monitor of " +:+ title) true;
                  RenameDevice source title true],
       {| ctl_settings := s;
          queue := queue c;
          instances := instances c ++ [row];
          next_instance_id := next_instance_id c;
          db := db' |})
  end end end end.

(** ** Stopping and reclaiming *)

Inductive stop_result := StopNotFound | StopError | Stopped.

(** The value [stop_instance] returns. *)
Definition stop_ok (r : stop_result) : bool :=
  match r with Stopped => true | _ => false end.

Definition forget_instance (instance_id : Z) (c : controller) : controller :=
  {| ctl_settings := ctl_settings c;
     queue := queue c;
     instances := filter (λ i, inst_id i ≠ instance_id) (instances c);
     next_instance_id := next_instance_id c;
     db := delete_instance instance_id (db c) |}.

Definition stop_instance (kill : Z → kill_result) (instance_id : Z)
    (c : controller) : stop_result * list effect * controller :=
  match List.find (λ i, bool_decide (inst_id i = instance_id)) (instances c) with
  | None => (StopNotFound, [], c)
  | Some i =>
      match kill (pid i) with
      | KillFailed => (StopError, [Kill (pid i) SIGTERM], c)
      | KillOk | KillNoProcess =>
          (Stopped, [Kill (pid i) SIGTERM], forget_instance instance_id c)
      end
  end.

(** One turn of the loop of [clean_instances]. *)
Definition clean_one (probe : Z → kill_result)
    (acc : list effect * controller) (i : instance)
  : list effect * controller :=
  let '(effs, c) := acc in
  match probe (pid i) with
  | KillNoProcess => (effs ++ [Kill (pid i) SIG0], forget_instance (inst_id i) c)
  | KillOk | KillFailed => (effs ++ [Kill (pid i) SIG0], c)
  end.

(** The loop runs over a copy of [self.instances] taken at its start. *)
Definition clean_instances (probe : Z → kill_result) (c : controller)
  : list effect * controller :=
  foldl (clean_one probe) ([], c) (instances c).

(** ** Admission *)

Inductive next_result :=
  | QueueEmpty
  | CapacityFull (limit : Z)
  | NotStarted (why : start_result)
  | Started (instance_id : Z) (url : string).

(** The value [start_next] returns. *)
Definition next_ok (r : next_result) : bool :=
  match r with Started _ _ => true | _ => false end.

Definition bump_next_id (c : controller) : controller :=
  {| ctl_settings := ctl_settings c;
     queue := queue c;
     instances := instances c;
     next_instance_id := next_instance_id c + 1;
     db := db c |}.

Definition start_next (w : spawn_world) (c : controller)
  : next_result * list effect * controller :=
  match queue c with
  | [] => (QueueEmpty, [], c)
  | next_item :: _ =>
      if decide (max_concurrent (ctl_settings c) ≤ Z.of_nat (length (instances c)))
      then (CapacityFull (max_concurrent (ctl_settings c)), [], c)
      else
        let '(r, effs, c') :=
          start_taby w (q_url next_item) (next_instance_id c) c in
        if start_ok r
        then (Started (next_instance_id c) (q_url next_item), effs,
              remove_from_queue (q_id next_item) (bump_next_id c'))
        else (NotStarted r, effs, c')
  end.

(** ** Start-up

    [__init__] without a playlist file: load the queue, queue the URLs of
    the command line, load the instances, set the id counter, reclaim the
    dead.  [self.instances] and [self.next_instance_id] do not exist
    before they are assigned; the placeholders below are never read. *)
Definition init_queue (s : settings) (d : store) (urls : list string)
  : controller :=
  foldl (λ c url, snd (add_to_queue url c))
    {| ctl_settings := s; queue := load_queue d; instances := [];
       next_instance_id := 0; db := d |}
    urls.

Definition init_loaded (s : settings) (d : store) (urls : list string)
  : controller :=
  let c := init_queue s d urls in
  let loaded := load_instances (db c) in
  {| ctl_settings := s; queue := queue c; instances := loaded;
     next_instance_id := py_max (inst_id <$> loaded) 0 + 1;
     db := db c |}.

Definition init (s : settings) (d : store) (urls : list string)
    (probe : Z → kill_result) : controller :=
  snd (clean_instances probe (init_loaded s d urls)).

Definition empty_store : store := Store [] [].

(** ** Sequences of commands *)

Inductive op :=
  | Enqueue (url : string)
  | Dequeue (queue_id : Z)
  | StartNext (w : spawn_world)
  | Stop (instance_id : Z) (kill : Z → kill_result)
  | Clean (probe : Z → kill_result).

Definition step (c : controller) (o : op) : controller :=
  match o with
  | Enqueue url => snd (add_to_queue url c)
  | Dequeue queue_id => remove_from_queue queue_id c
  | StartNext w => snd (start_next w c)
  | Stop instance_id kill => snd (stop_instance kill instance_id c)
  | Clean probe => snd (clean_instances probe c)
  end.

Definition run (c : controller) (ops : list op) : controller :=
  foldl step c ops.

(** The ids handed out along a run, oldest first. *)
Definition assigned (c : controller) (o : op) : list Z :=
  match o with
  | StartNext w =>
      match start_next w c with
      | (Started instance_id _, _, _) => [instance_id]
      | _ => []
      end
  | _ => []
  end.

Fixpoint assigned_ids (c : controller) (ops : list op) : list Z :=
  match ops with
  | [] => []
  | o :: ops' => assigned c o ++ assigned_ids (step c o) ops'
  end.

(** * Definitions used in the statements *)

(** What SQLite guarantees of any database file: rows in key order, keys
    unique. *)
Record store_ok (d : store) : Prop := StoreOk {
  queue_keys_sorted : StronglySorted Z.lt (q_id <$> queue_table d);
  instance_keys_sorted : StronglySorted Z.lt (inst_id <$> instances_table d)
}.

Record consistent (c : controller) : Prop := Consistent {
  queue_mirrored : queue c = queue_table (db c);
  instances_mirrored : instances c = instances_table (db c);
  queue_sorted : StronglySorted Z.lt (q_id <$> queue c);
  instances_sorted : StronglySorted Z.lt (inst_id <$> instances c);
  ids_below_next : Forall (λ i, inst_id i < next_instance_id c) (instances c)
}.

(** The controller after the head [item] of the queue was admitted with
    process id [p]. *)
Definition after_admission (c : controller) (item : queue_item)
    (rest : list queue_item) (p : Z) : controller :=
  let i := new_instance (ctl_settings c) (q_url item) (next_instance_id c) p in
  {| ctl_settings := ctl_settings c;
     queue := rest;
     instances := instances c ++ [i];
     next_instance_id := next_instance_id c + 1;
     db := {| queue_table := rest;
              instances_table := instances_table (db c) ++ [i] |} |}.

Definition live_count (c : controller) : Z := Z.of_nat (length (instances c)).

(** The defaults of the command line. *)
Definition default_settings : settings :=
  {| script := "./taby.sh";
     rtsp_base_port := 8554;
     http_base_port := 8080;
     port_increment := 10;
     max_concurrent := 5;
     log_dir := "/tmp/taby-controller-logs";
     db_file := "/tmp/taby-controller.db";
     audio_quality := "bestaudio";
     stream_bitrate := 128;
     stream_codec := "mp3" |}.

Definition with_limit (n : Z) (s : settings) : settings :=
  {| script := script s;
     rtsp_base_port := rtsp_base_port s;
     http_base_port := http_base_port s;
     port_increment := port_increment s;
     max_concurrent := n;
     log_dir := log_dir s;
     db_file := db_file s;
     audio_quality := audio_quality s;
     stream_bitrate := stream_bitrate s;
     stream_codec := stream_codec s |}.

Definition with_increment (n : Z) (s : settings) : settings :=
  {| script := script s;
     rtsp_base_port := rtsp_base_port s;
     http_base_port := http_base_port s;
     port_increment := n;
     max_concurrent := max_concurrent s;
     log_dir := log_dir s;
     db_file := db_file s;
     audio_quality := audio_quality s;
     stream_bitrate := stream_bitrate s;
     stream_codec := stream_codec s |}.

(** Nothing listens on any port (every connection is refused, errno
    111), the title lookup fails, the script starts with pid [p] and
    keeps running, the database can be written. *)
Definition quiet_world (p : Z) : spawn_world :=
  {| connect_ex := λ _, 111; get_title := None; popen := Some p;
     exit_status := None; db_writable := true |}.

(** Something accepts connections on every port. *)
Definition busy_world (p : Z) : spawn_world :=
  {| connect_ex := λ _, 0; get_title := None; popen := Some p;
     exit_status := None; db_writable := true |}.

(** As [quiet_world], but the script exits at once with status 1. *)
Definition failing_script (p : Z) : spawn_world :=
  {| connect_ex := λ _, 111; get_title := None; popen := Some p;
     exit_status := Some 1; db_writable := true |}.

(** As [quiet_world], but the database is locked when the row is
    inserted. *)
Definition locked_store (p : Z) : spawn_world :=
  {| connect_ex := λ _, 111; get_title := None; popen := Some p;
     exit_status := None; db_writable := false |}.

(** The same world with another fate of the script. *)
Definition exits_with (status : option Z) (w : spawn_world) : spawn_world :=
  {| connect_ex := connect_ex w; get_title := get_title w; popen := popen w;
     exit_status := status; db_writable := db_writable w |}.

Definition all_alive : Z → kill_result := λ _, KillOk.

Definition three_urls : list string :=
  ["http://a.example/1"; "https://b.example/2"; "http://c.example/3"]%string.

(** What the claim calls "starts with": the URL is the prefix followed by
    something. *)
Definition starts_with (p s : string) : Prop := ∃ rest, s = (p +:+ rest)%string.

(** The calls made to the outside world by one command. *)
Definition step_effects (c : controller) (o : op) : list effect :=
  match o with
  | Enqueue _ | Dequeue _ => []
  | StartNext w => (start_next w c).1.2
  | Stop instance_id kill => (stop_instance kill instance_id c).1.2
  | Clean probe => (clean_instances probe c).1
  end.

(** The effects that run a program: the title lookup, the script, and
    the [pacmd] calls that rename the devices. *)
Definition spawns_process (e : effect) : bool :=
  match e with
  | Launch _ | TitleLookup _ | RenameDevice _ _ _ => true
  | Connect _ | Kill _ _ => false
  end.

(** The ports of [i] are the ones settings [s] give its id. *)
Definition allocated_by (s : settings) (i : instance) : Prop :=
  rtsp_port i = rtsp_base_port s + inst_id i * port_increment s ∧
  http_port i = http_base_port s + inst_id i * port_increment s.

(** The probe [os.kill(pid, 0)] did not raise [ProcessLookupError]. *)
Definition alive (probe : Z → kill_result) (i : instance) : Prop :=
  probe (pid i) ≠ KillNoProcess.

Global Instance kill_result_eq_dec : EqDecision kill_result.
Proof. solve_decision. Defined.

Global Instance alive_dec (probe : Z → kill_result) (i : instance) :
  Decision (alive probe i).
Proof. unfold alive. apply _. Defined.

(** The ids of the records of [l] whose process is gone. *)
Definition dead_ids (probe : Z → kill_result) (l : list instance) : list Z :=
  inst_id <$> filter (λ i, ¬ alive probe i) l.

(** Process 4001 is gone, process 4002 is not. *)
Definition first_died : Z → kill_result :=
  λ p, if decide (p = 4001) then KillNoProcess else KillOk.

(** The item one command adds to the queue, if any. *)
Definition enqueued (c : controller) (o : op) : list queue_item :=
  match o with
  | Enqueue url =>
      match (add_to_queue url c).1 with
      | Added queue_id => [QueueItem queue_id url]
      | InvalidUrl => []
      end
  | _ => []
  end.

(** The items added along a run, oldest first. *)
Fixpoint arrivals (c : controller) (ops : list op) : list queue_item :=
  match ops with
  | [] => []
  | o :: ops' => enqueued c o ++ arrivals (step c o) ops'
  end.

(** * The rest of the controller and its front ends *)

(** ** Stopping everything

    The [stop-all] command of [interactive_mode], and [stop_all] of the
    window: [stop_instance] on the id of every entry of a copy of
    [self.instances]. *)
Definition stop_all_one (kill : Z → kill_result)
    (acc : list effect * controller) (i : instance)
  : list effect * controller :=
  let '(effs, c) := acc in
  let '(_, e, c') := stop_instance kill (inst_id i) c in
  (effs ++ e, c').

Definition stop_all (kill : Z → kill_result) (c : controller)
  : list effect * controller :=
  foldl (stop_all_one kill) ([], c) (instances c).

(** ** The playlist

    [load_playlist] reads the file line by line; [lines] are the lines
    read before the file ended or reading raised, and [strip] is Python's
    [str.strip].  An exception is caught and only changes the message
    printed. *)
Definition playlist_line (strip : string → string) (c : controller)
    (line : string) : controller :=
  let url := strip line in
  if bool_decide (url ≠ ""%string) && negb (String.prefix "#" url)
  then (add_to_queue url c).2
  else c.

Definition load_playlist (strip : string → string) (lines : list string)
    (c : controller) : controller :=
  foldl (playlist_line strip) c lines.

(** ** Filling the free slots

    The loop of [main]: [start_next] as long as there is room and
    something queued.  Each turn meets a world of its own; [None] when
    the worlds run out before the loop ends. *)
Definition can_fill (c : controller) : Prop :=
  Z.of_nat (length (instances c)) < max_concurrent (ctl_settings c) ∧
  queue c ≠ [].

Global Instance can_fill_dec (c : controller) : Decision (can_fill c).
Proof. unfold can_fill. apply _. Defined.

Fixpoint fill (ws : list spawn_world) (c : controller) : option controller :=
  if decide (can_fill c) then
    match ws with
    | [] => None
    | w :: ws' => fill ws' (start_next w c).2
    end
  else Some c.

(** A world in which a start cannot fail: nothing listens on any port,
    the script starts and the database can be written. *)
Definition welcoming (w : spawn_world) : Prop :=
  (∀ port, connect_ex w port ≠ 0) ∧ popen w ≠ None ∧ db_writable w = true.

(** The ports of instance [instance_id] are ports. *)
Definition ports_in_range (s : settings) (instance_id : Z) : Prop :=
  0 ≤ port_of (rtsp_base_port s) instance_id (port_increment s) ≤ 65535 ∧
  0 ≤ port_of (http_base_port s) instance_id (port_increment s) ≤ 65535.

Definition launched (effs : list effect) : Prop :=
  ∃ argv, Launch argv ∈ effs.

(** ** The window

    [gui.py] drives the same controller.  [update_displays] calls
    [clean_instances] before it redraws; [start_next] repeats the body
    of the controller's [start_next]; [remove_from_queue] removes the
    item selected in the list box, by its position. *)
Module Gui.

Definition update_displays (probe : Z → kill_result) (c : controller)
  : controller :=
  (clean_instances probe c).2.

Definition start_next (w : spawn_world) (probe : Z → kill_result)
    (c : controller) : controller :=
  match queue c with
  | [] => c
  | next_item :: _ =>
      if decide (max_concurrent (ctl_settings c) ≤ Z.of_nat (length (instances c)))
      then c
      else
        let '(r, _, c') :=
          start_taby w (q_url next_item) (next_instance_id c) c in
        if start_ok r
        then update_displays probe
               (remove_from_queue (q_id next_item) (bump_next_id c'))
        else c'
  end.

(** [None]: the position is not one of the queue and the lookup raises. *)
Definition remove_from_queue (selected : nat) (probe : Z → kill_result)
    (c : controller) : option controller :=
  match queue c !! selected with
  | Some item =>
      Some (update_displays probe (remove_from_queue (q_id item) c))
  | None => None
  end.

Definition stop_selected (kill probe : Z → kill_result) (instance_id : Z)
    (c : controller) : controller :=
  let '(r, _, c') := stop_instance kill instance_id c in
  if stop_ok r then update_displays probe c' else c'.

End Gui.

(** * The stand-alone script

    [taby-controller.py] is an older controller with the same command
    names and another design: the queue of URLs lives in memory only, the
    instances live in the table [taby_instances] only, a full list makes
    room by stopping the oldest instance, and the [add] command starts
    the URL at once when there is room. *)

Module Legacy.

(** [DEFAULT_SETTINGS], overridden by the command line. *)
Record settings := Settings {
  taby_script : string;
  rtsp_base_port : Z;
  http_base_port : Z;
  port_increment : Z;
  max_concurrent : Z;
  log_dir : string;
  db_file : string
}.

Inductive status := Running | Dead.

Global Instance status_eq_dec : EqDecision status.
Proof. solve_decision. Defined.

(** A row of [taby_instances]. *)
Record row := Row {
  id : Z;
  pid : Z;
  url : string;
  name : string;
  sink_name : string;
  source_name : string;
  rtsp_port : Z;
  http_port : Z;
  created_at : Z;
  state : status
}.

(** [self.urls_queue], and the two tables; rows of [url_queue] are
    written and never read or deleted. *)
Record controller := Controller {
  ctl_settings : settings;
  urls_queue : list string;
  taby_instances : list row;
  url_queue : list string
}.

(** What one command meets: the name [get_name] builds from the clock
    and [yt-dlp], the pid [Popen] returns ([None] when opening the log
    file or [Popen] raises), [CURRENT_TIMESTAMP], and what [os.kill]
    does. *)
Record world := World {
  get_name : string;
  popen : option Z;
  now : Z;
  kill : Z → kill_result
}.

(** [None] stands for an exception leaving the function. *)
Definition start_taby (w : world) (u : string) (instance_id : Z)
    (c : controller) : option Z * controller :=
  let s := ctl_settings c in
  let rtsp := rtsp_base_port s + instance_id * port_increment s in
  let http := http_base_port s + instance_id * port_increment s in
  let sink := String.substring 0 15 (get_name w +:+ "_sink") in
  let source := String.substring 0 15 (get_name w +:+ "_source") in
  match popen w with
  | None => (None, c)
  | Some p =>
      if has_key id instance_id (taby_instances c) then (None, c)
      else
        (Some p,
         {| ctl_settings := s;
            urls_queue := urls_queue c;
            taby_instances :=
              insert_row id
                (Row instance_id p u (get_name w) sink source rtsp http
                   (now w) Running)
                (taby_instances c);
            url_queue := url_queue c |})
  end.

Definition delete_where (P : row → Prop) `{!∀ r, Decision (P r)}
    (c : controller) : controller :=
  {| ctl_settings := ctl_settings c;
     urls_queue := urls_queue c;
     taby_instances := filter (λ r, ¬ P r) (taby_instances c);
     url_queue := url_queue c |}.

Definition stop_taby (w : world) (instance_id : Z) (c : controller)
  : option bool * controller :=
  match List.find (λ r, bool_decide (id r = instance_id)) (taby_instances c) with
  | Some r =>
      match kill w (pid r) with
      | KillFailed => (None, c)
      | KillOk | KillNoProcess =>
          (Some true, delete_where (λ r, id r = instance_id) c)
      end
  | None => (Some false, c)
  end.

(** [SELECT COUNT( * ) FROM taby_instances WHERE status = "Running"]. *)
Definition running_count (c : controller) : Z :=
  Z.of_nat (length (filter (λ r, state r = Running) (taby_instances c))).

(** [SELECT id FROM taby_instances ORDER BY created_at LIMIT 1]: among
    rows of equal time the first of the table is taken. *)
Fixpoint oldest (t : list row) : option row :=
  match t with
  | [] => None
  | r :: t' =>
      match oldest t' with
      | Some r' => if decide (created_at r' < created_at r) then Some r' else Some r
      | None => Some r
      end
  end.

(** [SELECT COALESCE(MAX(id)+1, 0) FROM taby_instances]. *)
Definition next_id (c : controller) : Z :=
  match taby_instances c with
  | [] => 0
  | _ :: _ => py_max (id <$> taby_instances c) 0 + 1
  end.

Definition pop_url (c : controller) : controller :=
  {| ctl_settings := ctl_settings c;
     urls_queue := tail (urls_queue c);
     taby_instances := taby_instances c;
     url_queue := url_queue c |}.

(** [true]: the function returned; [false]: an exception left it. *)
Definition start_next (w : world) (c : controller) : bool * controller :=
  match urls_queue c with
  | [] => (true, c)
  | u :: _ =>
      let made_room :=
        if decide (max_concurrent (ctl_settings c) ≤ running_count c) then
          match oldest (taby_instances c) with
          | None => (None, c)
          | Some r => stop_taby w (id r) c
          end
        else (Some true, c) in
      match made_room with
      | (None, c1) => (false, c1)
      | (Some _, c1) =>
          let c2 := pop_url c1 in
          match start_taby w u (next_id c2) c2 with
          | (None, c3) => (false, c3)
          | (Some _, c3) => (true, c3)
          end
      end
  end.

(** The [add] command of the loop. *)
Definition add (w : world) (arg : string) (c : controller)
  : bool * controller :=
  let c1 := {| ctl_settings := ctl_settings c;
               urls_queue := urls_queue c ++ [arg];
               taby_instances := taby_instances c;
               url_queue := url_queue c ++ [arg] |} in
  if decide (running_count c1 < max_concurrent (ctl_settings c1))
  then start_next w c1
  else (true, c1).

Definition mark_dead (r : row) : row :=
  Row (id r) (pid r) (url r) (name r) (sink_name r) (source_name r)
      (rtsp_port r) (http_port r) (created_at r) Dead.

(** The loop of [update_statuses] over the rows that are [Running]: a
    row whose process is gone is marked [Dead]; an exception of [os.kill]
    other than [ProcessLookupError] leaves the loop ([false]) with the
    rows before it already marked. *)
Fixpoint mark_rows (probe : Z → kill_result) (t : list row)
  : bool * list row :=
  match t with
  | [] => (true, [])
  | r :: t' =>
      if decide (state r = Running) then
        match probe (pid r) with
        | KillFailed => (false, r :: t')
        | KillNoProcess =>
            let '(ok, t'') := mark_rows probe t' in (ok, mark_dead r :: t'')
        | KillOk =>
            let '(ok, t'') := mark_rows probe t' in (ok, r :: t'')
        end
      else
        let '(ok, t'') := mark_rows probe t' in (ok, r :: t'')
  end.

Definition update_statuses (probe : Z → kill_result) (c : controller)
  : bool * controller :=
  let '(ok, t) := mark_rows probe (taby_instances c) in
  (ok,
   {| ctl_settings := ctl_settings c;
      urls_queue := urls_queue c;
      taby_instances := t;
      url_queue := url_queue c |}).

(** The [clean] command: [DELETE FROM taby_instances WHERE status = "Dead"]. *)
Definition clean (c : controller) : controller :=
  delete_where (λ r, state r = Dead) c.

Definition default_settings : settings :=
  {| taby_script := "./taby.sh";
     rtsp_base_port := 8554;
     http_base_port := 8080;
     port_increment := 10;
     max_concurrent := 5;
     log_dir := "/tmp/taby-controller-logs";
     db_file := "/tmp/taby-controller.db" |}.

Definition with_limit (n : Z) (s : settings) : settings :=
  {| taby_script := taby_script s;
     rtsp_base_port := rtsp_base_port s;
     http_base_port := http_base_port s;
     port_increment := port_increment s;
     max_concurrent := n;
     log_dir := log_dir s;
     db_file := db_file s |}.

Definition fresh (s : settings) (urls : list string) : controller :=
  {| ctl_settings := s; urls_queue := urls; taby_instances := [];
     url_queue := [] |}.

(** At time [t] the script starts with pid [p]; every signal is
    delivered. *)
Definition calm (t p : Z) : world :=
  {| get_name := "taby-x"; popen := Some p; now := t; kill := λ _, KillOk |}.

(** [Popen] raises. *)
Definition broken (t : Z) : world :=
  {| get_name := "taby-x"; popen := None; now := t; kill := λ _, KillOk |}.

(** [stop_all_tabies]: a signal to every row, then
    [DELETE FROM taby_instances]; an exception of [os.kill] other than
    [ProcessLookupError] leaves before the delete. *)
Definition stop_all_tabies (w : world) (c : controller) : bool * controller :=
  if bool_decide (Exists (λ r, kill w (pid r) = KillFailed) (taby_instances c))
  then (false, c)
  else (true, delete_where (λ _, True) c).

(** The commands of the loop that change the controller. *)
Inductive command :=
  | Add (w : world) (arg : string)
  | StartNext (w : world)
  | Stop (w : world) (instance_id : Z)
  | StopAll (w : world)
  | List (probe : Z → kill_result)
  | Clean.

Definition exec (c : controller) (cmd : command) : controller :=
  match cmd with
  | Add w arg => (add w arg c).2
  | StartNext w => (start_next w c).2
  | Stop w instance_id => (stop_taby w instance_id c).2
  | StopAll w => (stop_all_tabies w c).2
  | List probe => (update_statuses probe c).2
  | Clean => clean c
  end.

(** The loop of [run] that reads the commands, entered with controller
    [c]: an exception of a command is caught by the loop, which goes on
    with what the command left. *)
Definition session (c : controller) (cmds : list command) : controller :=
  foldl exec c cmds.

(** Where [run] stands when its input is used up: still in its first
    loop, left by an exception, or through. *)
Inductive outcome :=
  | Unfinished (c : controller)
  | Raised (c : controller)
  | Finished (c : controller).

Definition state_of (o : outcome) : controller :=
  match o with Unfinished c | Raised c | Finished c => c end.

(** The first loop of [run]: [start_next] while [COUNT( * )] of the table
    is below the limit and a URL is queued.  Each turn meets a world of
    its own, and nothing catches an exception there. *)
Definition can_fill (c : controller) : Prop :=
  Z.of_nat (length (taby_instances c)) < max_concurrent (ctl_settings c) ∧
  urls_queue c ≠ [].

Global Instance fill_condition_dec (c : controller) : Decision (can_fill c).
Proof. unfold can_fill. apply _. Defined.

Fixpoint fill (ws : list world) (c : controller) : outcome :=
  if decide (can_fill c) then
    match ws with
    | [] => Unfinished c
    | w :: ws' =>
        match start_next w c with
        | (true, c') => fill ws' c'
        | (false, c') => Raised c'
        end
    end
  else Finished c.

(** [run], entered with the controller [__init__] has built.  With
    [--list] it lists and returns.  Otherwise it fills the table, calls
    [update_statuses] (with [probe] for [os.kill]) and reads the commands
    [cmds]; [Finished] is the controller after the last of them. *)
Definition run (list_only : bool) (ws : list world) (probe : Z → kill_result)
    (cmds : list command) (c : controller) : outcome :=
  if list_only then
    match update_statuses probe c with
    | (true, c1) => Finished c1
    | (false, c1) => Raised c1
    end
  else
    match fill ws c with
    | Finished c1 =>
        match update_statuses probe c1 with
        | (true, c2) => Finished (session c2 cmds)
        | (false, c2) => Raised c2
        end
    | o => o
    end.

(** A probe that finds no process gone. *)
Definition none_gone (probe : Z → kill_result) : Prop :=
  ∀ p, probe p ≠ KillNoProcess.

(** The commands that mark no row dead: all but a [list] that finds a
    process gone. *)
Definition marks_nothing (cmd : command) : Prop :=
  match cmd with List probe => none_gone probe | _ => True end.

End Legacy.

(** ** The settings of the stand-alone script

    [parse_arguments] works on the dictionary [DEFAULT_SETTINGS] and on
    [vars(args)], the values the parser stored under the destination of
    each option: [for k, v in vars(args).items(): if v and k in
    self.settings: self.settings[k] = v]. *)
Module LegacyArgs.

Inductive value :=
  | VNone
  | VBool (b : bool)
  | VInt (z : Z)
  | VStr (s : string)
  | VList (l : list string).

(** Python's truth value. *)
Definition truthy (v : value) : bool :=
  match v with
  | VNone => false
  | VBool b => b
  | VInt z => negb (z =? 0)
  | VStr s => negb (String.eqb s "")
  | VList l => negb (bool_decide (l = []))
  end.

Definition DEFAULT_SETTINGS : gmap string value :=
  list_to_map
    [("taby_script", VStr "./taby.sh");
     ("rtsp_base_port", VInt 8554);
     ("http_base_port", VInt 8080);
     ("port_increment", VInt 10);
     ("max_concurrent", VInt 5);
     ("log_dir", VStr "/tmp/taby-controller-logs");
     ("db_file", VStr "/tmp/taby-controller.db")]%string.

(** The destinations of the options, in the order of [add_argument]. *)
Definition parser_dests : list string :=
  ["playlist"; "url"; "script"; "list"; "rtsp_base_port"; "http_base_port";
   "port_increment"; "max_concurrent"; "log_dir"; "db_file"]%string.

Definition override (st : gmap string value) (kv : string * value)
  : gmap string value :=
  if truthy kv.2 && bool_decide (kv.1 ∈ dom st)
  then <[kv.1 := kv.2]> st
  else st.

Definition apply_args (args : list (string * value))
    (st : gmap string value) : gmap string value :=
  foldl override st args.

(** The settings after the command line gave [vals], one value for each
    destination. *)
Definition parsed (vals : list value) : gmap string value :=
  apply_args (zip parser_dests vals) DEFAULT_SETTINGS.

End LegacyArgs.

(** * More definitions used in the statements *)

Definition never_delivered : Z → kill_result := λ _, KillFailed.

(** The ids of the records of [l] that a stop removes. *)
Definition stopped_ids (kill : Z → kill_result) (l : list instance) : list Z :=
  inst_id <$> filter (λ i, kill (pid i) ≠ KillFailed) l.

(** A world in which no start can succeed: something accepts
    connections on every port, or the script cannot be run, or the
    database cannot be written. *)
Definition blocked (w : spawn_world) : Prop :=
  (∀ port, connect_ex w port = 0) ∨ popen w = None ∨ db_writable w = false.

(** The rows are all [Running] and no more than the limit. *)
Definition legacy_within (c : Legacy.controller) : Prop :=
  Forall (λ r, Legacy.state r = Legacy.Running) (Legacy.taby_instances c) ∧
  Z.of_nat (length (Legacy.taby_instances c))
    ≤ Legacy.max_concurrent (Legacy.ctl_settings c).

(** A row that is still running after the probe. *)
Definition still_running (probe : Z → kill_result) (r : Legacy.row) : Prop :=
  Legacy.state r = Legacy.Running ∧ probe (Legacy.pid r) ≠ KillNoProcess.

Global Instance still_running_dec (probe : Z → kill_result) (r : Legacy.row) :
  Decision (still_running probe r).
Proof. unfold still_running. apply _. Defined.

(** * Facts about tables *)

Section TableFacts.
Context {A : Type} (key : A → Z).

Lemma insert_row_last (r : A) (t : list A) :
  Forall (λ x, key x ≤ key r) t → insert_row key r t = t ++ [r].
Proof.
  induction 1 as [|x t Hx _ IH]; simpl; [done|].
  destruct (decide (key r < key x)); [lia|]. by rewrite IH.
Qed.

Lemma sorted_keys_filter (P : A → Prop) `{!∀ x, Decision (P x)} (t : list A) :
  StronglySorted Z.lt (key <$> t) →
  StronglySorted Z.lt (key <$> filter P t).
Proof.
  induction t as [|x t IH]; simpl; [done|].
  intros Hs. apply StronglySorted_inv in Hs as [Ht Hx].
  rewrite filter_cons. destruct (decide (P x)); [|by apply IH].
  rewrite fmap_cons. constructor; [by apply IH|].
  rewrite Forall_fmap in Hx |- *.
  apply list.Forall_forall. intros y Hy%list_elem_of_filter.
  rewrite list.Forall_forall in Hx. apply Hx, Hy.
Qed.

Lemma sorted_keys_snoc (r : A) (t : list A) :
  StronglySorted Z.lt (key <$> t) →
  Forall (λ x, key x < key r) t →
  StronglySorted Z.lt (key <$> (t ++ [r])).
Proof.
  intros Hs Hlt. rewrite fmap_app. apply StronglySorted_app_2.
  - intros x1 x2 Hx1 Hx2. apply list_elem_of_fmap in Hx1 as [y [-> Hy]].
    apply list_elem_of_fmap in Hx2 as [z [-> Hz]].
    apply list_elem_of_singleton in Hz as ->.
    rewrite list.Forall_forall in Hlt. by apply Hlt.
  - done.
  - repeat constructor.
Qed.

Lemma sorted_keys_NoDup (t : list A) :
  StronglySorted Z.lt (key <$> t) → NoDup (key <$> t).
Proof.
  generalize (key <$> t). clear t. intros l.
  induction 1 as [|x l _ IH Hx]; constructor; [|done].
  intros Hin. rewrite list.Forall_forall in Hx. specialize (Hx _ Hin). lia.
Qed.

Lemma has_key_false (k : Z) (t : list A) :
  Forall (λ x, key x < k) t → has_key key k t = false.
Proof.
  intros Hlt. unfold has_key. apply bool_decide_eq_false.
  intros [y [-> Hy]]%list_elem_of_fmap.
  rewrite list.Forall_forall in Hlt. specialize (Hlt _ Hy). lia.
Qed.

Lemma delete_row_absent (k : Z) (t : list A) :
  k ∉ key <$> delete_row key k t.
Proof.
  intros [y [-> Hy]]%list_elem_of_fmap.
  apply list_elem_of_filter in Hy as [Hne _]. done.
Qed.
End TableFacts.

Lemma py_max_ge (l : list Z) (d x : Z) : x ∈ l → x ≤ py_max l d.
Proof.
  destruct l as [|y l]; simpl; [by intros ?%elem_of_nil|].
  assert (Hacc : ∀ l a, a ≤ foldl Z.max a l).
  { clear. induction l as [|z l IH]; simpl; intros a; [lia|].
    specialize (IH (Z.max a z)). lia. }
  assert (Hmem : ∀ l a, x ∈ l → x ≤ foldl Z.max a l).
  { clear -Hacc. induction l as [|z l IH]; simpl; intros a.
    - by intros ?%elem_of_nil.
    - intros [->|Hin]%elem_of_cons; [|by apply IH].
      specialize (Hacc l (Z.max a z)). lia. }
  intros [->|Hin]%elem_of_cons; [apply Hacc | by apply Hmem].
Qed.

Lemma py_max_lt_succ (l : list Z) (d : Z) :
  Forall (λ x, x < py_max l d + 1) l.
Proof.
  apply list.Forall_forall. intros x Hx. pose proof (py_max_ge l d x Hx). lia.
Qed.

(** * Consistency of the controller with its store *)

Lemma add_to_queue_accepts (url : string) (c : controller) :
  queue c = queue_table (db c) → valid_url url = true →
  let item := QueueItem (py_max (q_id <$> queue c) 0 + 1) url in
  add_to_queue url c =
    (Added (q_id item),
     {| ctl_settings := ctl_settings c;
        queue := queue c ++ [item];
        instances := instances c;
        next_instance_id := next_instance_id c;
        db := {| queue_table := queue_table (db c) ++ [item];
                 instances_table := instances_table (db c) |} |}).
Proof.
  intros Hc Hv. unfold add_to_queue, insert_queue. rewrite Hv. simpl.
  rewrite <- Hc. rewrite insert_row_last; [done|].
  pose proof (py_max_lt_succ (q_id <$> queue c) 0) as Hlt.
  rewrite Forall_fmap in Hlt. eapply Forall_impl; [|exact Hlt].
  simpl. intros; lia.
Qed.

Lemma add_to_queue_rejects (url : string) (c : controller) :
  valid_url url = false → add_to_queue url c = (InvalidUrl, c).
Proof. intros Hv. unfold add_to_queue. by rewrite Hv. Qed.

Lemma add_to_queue_consistent (url : string) (c : controller) :
  consistent c → consistent (snd (add_to_queue url c)).
Proof.
  intros Hc. destruct (valid_url url) eqn:Hv.
  - rewrite add_to_queue_accepts by (done || apply Hc). destruct Hc. simpl.
    constructor; simpl; try done; [congruence|].
    apply sorted_keys_snoc; [done|]. simpl.
    pose proof (py_max_lt_succ (q_id <$> queue c) 0) as Hlt.
    by rewrite Forall_fmap in Hlt.
  - by rewrite add_to_queue_rejects.
Qed.

Lemma remove_from_queue_consistent (queue_id : Z) (c : controller) :
  consistent c → consistent (remove_from_queue queue_id c).
Proof.
  intros [Hq Hi Hqs His Hn]. constructor; simpl; try done.
  - unfold delete_row. by rewrite Hq.
  - by apply sorted_keys_filter.
Qed.

Lemma forget_instance_consistent (instance_id : Z) (c : controller) :
  consistent c → consistent (forget_instance instance_id c).
Proof.
  intros [Hq Hi Hqs His Hn]. constructor; simpl; try done.
  - unfold delete_row. by rewrite Hi.
  - by apply sorted_keys_filter.
  - rewrite list.Forall_forall in Hn |- *.
    intros i [_ Hin]%list_elem_of_filter. by apply Hn.
Qed.

(** [start_taby] either changes nothing or appends one record, the same
    to the list and to the table. *)
Lemma start_taby_cases (w : spawn_world) (url : string) (instance_id : Z)
    (c : controller) :
  (start_ok (start_taby w url instance_id c).1.1 = false ∧
   (start_taby w url instance_id c).2 = c) ∨
  (∃ p, popen w = Some p ∧
        has_key inst_id instance_id (instances_table (db c)) = false ∧
        (start_taby w url instance_id c).1.1 = TabyStarted ∧
        (start_taby w url instance_id c).2 =
          {| ctl_settings := ctl_settings c;
             queue := queue c;
             instances := instances c ++
               [new_instance (ctl_settings c) url instance_id p];
             next_instance_id := next_instance_id c;
             db := {| queue_table := queue_table (db c);
                      instances_table :=
                        insert_row inst_id
                          (new_instance (ctl_settings c) url instance_id p)
                          (instances_table (db c)) |} |}).
Proof.
  unfold start_taby.
  destruct (check_port_availability w _) as [[]|]; [|by left..].
  destruct (check_port_availability w _) as [[]|]; [|by left..].
  destruct (popen w) as [p|]; [|by left].
  unfold insert_instance. simpl.
  destruct (db_writable w); [|by left].
  destruct (has_key _ _ _) eqn:Hk; [by left|].
  right. by exists p.
Qed.

Lemma sorted_keys_filter_head {A : Type} (key : A → Z) (x : A) (t : list A) :
  StronglySorted Z.lt (key <$> x :: t) →
  filter (λ y, key y ≠ key x) (x :: t) = t.
Proof.
  intros Hs. rewrite fmap_cons in Hs. apply StronglySorted_inv in Hs as [_ Hx].
  rewrite filter_cons_False by (intros Hne; by apply Hne).
  rewrite Forall_fmap in Hx.
  induction Hx as [|y t Hy _ IH]; [done|].
  rewrite filter_cons_True by (simpl in Hy; lia). by rewrite IH.
Qed.

(** The four ways [start_next] ends, in a consistent controller. *)
Lemma start_next_cases (w : spawn_world) (c : controller) :
  consistent c →
  (queue c = [] ∧ start_next w c = (QueueEmpty, [], c)) ∨
  (queue c ≠ [] ∧
   max_concurrent (ctl_settings c) ≤ Z.of_nat (length (instances c)) ∧
   start_next w c = (CapacityFull (max_concurrent (ctl_settings c)), [], c)) ∨
  (∃ item rest, queue c = item :: rest ∧
     Z.of_nat (length (instances c)) < max_concurrent (ctl_settings c) ∧
     ((∃ why effs, start_ok why = false ∧
         start_next w c = (NotStarted why, effs, c)) ∨
      (∃ p effs, popen w = Some p ∧
         start_next w c =
           (Started (next_instance_id c) (q_url item), effs,
            after_admission c item rest p)))).
Proof.
  intros Hc. unfold start_next.
  destruct (queue c) as [|item rest] eqn:Hq; [by left|]. right.
  destruct (decide _) as [Hfull|Hroom]; [by left|]. right.
  exists item, rest. split; [done|]. split; [lia|].
  destruct (start_taby_cases w (q_url item) (next_instance_id c) c)
    as [[Hno Hsame]|(p & Hp & Hk & Hyes & Hc')];
    destruct (start_taby w (q_url item) (next_instance_id c) c)
      as [[r effs] c'] eqn:Hst; simpl in *.
  - left. rewrite Hno. subst c'. by exists r, effs.
  - right. subst r. simpl. exists p, effs. split; [done|].
    f_equal. subst c'. unfold remove_from_queue, bump_next_id, after_admission.
    cbn [queue instances next_instance_id db ctl_settings delete_queue
         queue_table instances_table].
    destruct Hc as [Hqm Him Hqs His Hn].
    rewrite Hq in Hqs. rewrite Hq, (sorted_keys_filter_head q_id) by done.
    unfold delete_queue, delete_row. cbn [queue_table instances_table].
    rewrite <- Hqm, Hq, (sorted_keys_filter_head q_id) by done.
    rewrite insert_row_last; [done|]. rewrite <- Him.
    eapply Forall_impl; [|exact Hn]. simpl. intros; lia.
Qed.

Lemma after_admission_consistent (c : controller) (item : queue_item)
    (rest : list queue_item) (p : Z) :
  consistent c → queue c = item :: rest → consistent (after_admission c item rest p).
Proof.
  intros [Hqm Him Hqs His Hn] Hq. rewrite Hq in Hqs.
  constructor; simpl; try done.
  - by rewrite Him.
  - rewrite fmap_cons in Hqs. by apply StronglySorted_inv in Hqs as [? _].
  - by apply sorted_keys_snoc.
  - apply Forall_app. split.
    + eapply Forall_impl; [|exact Hn]. simpl. intros; lia.
    + repeat constructor. simpl. lia.
Qed.

Lemma start_next_consistent (w : spawn_world) (c : controller) :
  consistent c → consistent (start_next w c).2.
Proof.
  intros Hc.
  destruct (start_next_cases w c Hc)
    as [[_ ->]|[(_ & _ & ->)|(item & rest & Hq & _ &
         [(why & effs & _ & ->)|(p & effs & _ & ->)])]]; simpl; try done.
  by apply after_admission_consistent.
Qed.

Lemma stop_instance_consistent (kill : Z → kill_result) (instance_id : Z)
    (c : controller) :
  consistent c → consistent (stop_instance kill instance_id c).2.
Proof.
  intros Hc. unfold stop_instance.
  destruct (find _ _) as [i|]; [|done].
  destruct (kill (pid i)); simpl; try done;
    by apply forget_instance_consistent.
Qed.

Lemma clean_instances_consistent (probe : Z → kill_result) (c : controller) :
  consistent c → consistent (clean_instances probe c).2.
Proof.
  intros Hc. unfold clean_instances.
  generalize (instances c). intros l.
  generalize (@nil effect). revert c Hc.
  induction l as [|i l IH]; intros c Hc effs; simpl; [done|].
  destruct (probe (pid i)); apply IH; try done.
  by apply forget_instance_consistent.
Qed.

Lemma step_consistent (c : controller) (o : op) :
  consistent c → consistent (step c o).
Proof.
  destruct o; simpl; intros Hc.
  - by apply add_to_queue_consistent.
  - by apply remove_from_queue_consistent.
  - by apply start_next_consistent.
  - by apply stop_instance_consistent.
  - by apply clean_instances_consistent.
Qed.

Lemma run_consistent (c : controller) (ops : list op) :
  consistent c → consistent (run c ops).
Proof.
  revert c. induction ops as [|o ops IH]; intros c Hc; simpl; [done|].
  by apply IH, step_consistent.
Qed.

(** The loop of [__init__] over the URLs of the command line touches the
    queue and its table only. *)
Lemma queue_urls_spec (urls : list string) (c : controller) :
  queue c = queue_table (db c) →
  StronglySorted Z.lt (q_id <$> queue c) →
  let c' := foldl (λ c url, snd (add_to_queue url c)) c urls in
  queue c' = queue_table (db c') ∧
  StronglySorted Z.lt (q_id <$> queue c') ∧
  instances_table (db c') = instances_table (db c) ∧
  ctl_settings c' = ctl_settings c.
Proof.
  revert c. induction urls as [|url urls IH]; intros c Hq Hs; simpl; [done|].
  destruct (valid_url url) eqn:Hv.
  - rewrite add_to_queue_accepts by done. simpl.
    edestruct IH as (H1 & H2 & H3 & H4); [| |repeat split; eauto]; simpl.
    + by rewrite Hq.
    + apply sorted_keys_snoc; [done|]. simpl.
      pose proof (py_max_lt_succ (q_id <$> queue c) 0) as Hlt.
      by rewrite Forall_fmap in Hlt.
  - rewrite add_to_queue_rejects by done. by apply IH.
Qed.

Lemma init_loaded_consistent (s : settings) (d : store) (urls : list string) :
  store_ok d → consistent (init_loaded s d urls).
Proof.
  intros [Hq Hi]. unfold init_loaded, init_queue.
  set (c0 := {| ctl_settings := s; queue := load_queue d; instances := [];
                next_instance_id := 0; db := d |}).
  destruct (queue_urls_spec urls c0) as (H1 & H2 & H3 & _); [done..|].
  constructor; simpl; try done.
  - unfold load_instances. by rewrite H3.
  - unfold load_instances. rewrite H3.
    pose proof (py_max_lt_succ (inst_id <$> instances_table d) 0) as Hlt.
    by rewrite Forall_fmap in Hlt.
Qed.

Lemma init_consistent (s : settings) (d : store) (urls : list string)
    (probe : Z → kill_result) :
  store_ok d → consistent (init s d urls probe).
Proof.
  intros Hd. apply clean_instances_consistent.
  by apply init_loaded_consistent.
Qed.

(** * What the commands leave alone *)

Lemma add_to_queue_frame (url : string) (c : controller) :
  instances (add_to_queue url c).2 = instances c ∧
  instances_table (db (add_to_queue url c).2) = instances_table (db c) ∧
  next_instance_id (add_to_queue url c).2 = next_instance_id c ∧
  ctl_settings (add_to_queue url c).2 = ctl_settings c.
Proof. unfold add_to_queue. by destruct (valid_url url). Qed.

Lemma clean_loop_frame (probe : Z → kill_result) (l : list instance)
    (effs : list effect) (c : controller) :
  let c' := (foldl (clean_one probe) (effs, c) l).2 in
  ctl_settings c' = ctl_settings c ∧
  next_instance_id c' = next_instance_id c ∧
  queue c' = queue c ∧
  queue_table (db c') = queue_table (db c) ∧
  instances c' `sublist_of` instances c.
Proof.
  revert c effs. induction l as [|i l IH]; intros c effs; simpl; [done|].
  destruct (probe (pid i)); try apply IH.
  destruct (IH (forget_instance (inst_id i) c) (effs ++ [Kill (pid i) SIG0]))
    as (-> & -> & -> & -> & Hsub).
  repeat split; try done.
  etrans; [exact Hsub|]. apply sublist_filter.
Qed.

Lemma clean_instances_frame (probe : Z → kill_result) (c : controller) :
  ctl_settings (clean_instances probe c).2 = ctl_settings c ∧
  next_instance_id (clean_instances probe c).2 = next_instance_id c ∧
  queue (clean_instances probe c).2 = queue c ∧
  queue_table (db (clean_instances probe c).2) = queue_table (db c) ∧
  instances (clean_instances probe c).2 `sublist_of` instances c.
Proof. apply clean_loop_frame. Qed.

Lemma stop_instance_frame (kill : Z → kill_result) (instance_id : Z)
    (c : controller) :
  ctl_settings (stop_instance kill instance_id c).2 = ctl_settings c ∧
  next_instance_id (stop_instance kill instance_id c).2 = next_instance_id c ∧
  queue (stop_instance kill instance_id c).2 = queue c ∧
  instances (stop_instance kill instance_id c).2 `sublist_of` instances c.
Proof.
  unfold stop_instance. destruct (find _ _) as [i|]; [|done].
  destruct (kill (pid i)); simpl; repeat split; try done;
    apply sublist_filter.
Qed.

(** [start_next] keeps the settings and appends at most one instance,
    and none when the list is full. *)
Lemma start_next_grows (w : spawn_world) (c : controller) :
  ctl_settings (start_next w c).2 = ctl_settings c ∧
  (instances (start_next w c).2 = instances c ∨
   live_count c < max_concurrent (ctl_settings c) ∧
   ∃ i, instances (start_next w c).2 = instances c ++ [i]).
Proof.
  unfold start_next. destruct (queue c) as [|item rest]; [by auto|].
  destruct (decide _) as [Hfull|Hroom]; [by auto|].
  destruct (start_taby_cases w (q_url item) (next_instance_id c) c)
    as [[Hno Hsame]|(p & Hp & Hk & Hyes & Hc')];
    destruct (start_taby w (q_url item) (next_instance_id c) c)
      as [[r effs] c']; simpl in *.
  - rewrite Hno. subst c'. by auto.
  - subst r c'. simpl. split; [done|]. right.
    split; [unfold live_count; lia|]. by eexists.
Qed.

Lemma step_settings (c : controller) (o : op) :
  ctl_settings (step c o) = ctl_settings c.
Proof.
  destruct o; simpl.
  - apply add_to_queue_frame.
  - done.
  - apply start_next_grows.
  - apply stop_instance_frame.
  - apply clean_instances_frame.
Qed.

Lemma step_within_capacity (c : controller) (o : op) :
  live_count c ≤ max_concurrent (ctl_settings c) →
  live_count (step c o) ≤ max_concurrent (ctl_settings (step c o)).
Proof.
  rewrite step_settings. unfold live_count. intros Hc.
  destruct o; simpl.
  - by destruct (add_to_queue_frame url c) as (-> & _).
  - done.
  - destruct (start_next_grows w c) as [_ [->|[Hroom [i ->]]]]; [done|].
    unfold live_count in Hroom. rewrite length_app. simpl. lia.
  - destruct (stop_instance_frame kill instance_id c) as (_ & _ & _ & Hs).
    apply sublist_length in Hs. lia.
  - destruct (clean_instances_frame probe c) as (_ & _ & _ & _ & Hs).
    apply sublist_length in Hs. lia.
Qed.

Lemma run_settings (c : controller) (ops : list op) :
  ctl_settings (run c ops) = ctl_settings c.
Proof.
  revert c. induction ops as [|o ops IH]; intros c; simpl; [done|].
  by rewrite IH, step_settings.
Qed.

Lemma run_within_capacity (c : controller) (ops : list op) :
  live_count c ≤ max_concurrent (ctl_settings c) →
  live_count (run c ops) ≤ max_concurrent (ctl_settings c).
Proof.
  revert c. induction ops as [|o ops IH]; intros c Hc; simpl; [done|].
  rewrite <- (step_settings c o). by apply IH, step_within_capacity.
Qed.

Lemma queue_urls_frame (urls : list string) (c : controller) :
  let c' := foldl (λ c url, snd (add_to_queue url c)) c urls in
  instances_table (db c') = instances_table (db c) ∧
  ctl_settings c' = ctl_settings c.
Proof.
  revert c. induction urls as [|url urls IH]; intros c; simpl; [done|].
  destruct (IH (add_to_queue url c).2) as [-> ->].
  by destruct (add_to_queue_frame url c) as (_ & -> & _ & ->).
Qed.

Lemma init_loaded_instances (s : settings) (d : store) (urls : list string) :
  instances (init_loaded s d urls) = instances_table d.
Proof.
  unfold init_loaded, init_queue, load_instances. simpl.
  by destruct (queue_urls_frame urls
    {| ctl_settings := s; queue := load_queue d; instances := [];
       next_instance_id := 0; db := d |}) as [-> _].
Qed.

Lemma init_settings (s : settings) (d : store) (urls : list string)
    (probe : Z → kill_result) :
  ctl_settings (init s d urls probe) = s.
Proof.
  unfold init. by destruct (clean_instances_frame probe (init_loaded s d urls))
    as (-> & _).
Qed.

Lemma init_next_instance_id (s : settings) (d : store) (urls : list string)
    (probe : Z → kill_result) :
  next_instance_id (init s d urls probe) =
    py_max (inst_id <$> instances_table d) 0 + 1.
Proof.
  unfold init.
  destruct (clean_instances_frame probe (init_loaded s d urls))
    as (_ & -> & _).
  pose proof (init_loaded_instances s d urls) as Hi.
  unfold init_loaded in *. simpl in *. by rewrite Hi.
Qed.

Lemma init_instances (s : settings) (d : store) (urls : list string)
    (probe : Z → kill_result) :
  instances (init s d urls probe) `sublist_of` instances_table d.
Proof.
  unfold init. rewrite <- (init_loaded_instances s d urls).
  apply clean_instances_frame.
Qed.

(** * Capacity *)

(** C1, as amended.  Starting from an empty controller (an empty store,
    whatever URLs the command line queues), after every prefix of every
    sequence of commands (enqueue, dequeue, start-next, stop, clean, each
    meeting any world) the number of live instances is at most
    [max_concurrent], for a limit that is not negative. *)
Theorem live_count_within_limit (s : settings) (urls : list string)
    (probe : Z → kill_result) (ops : list op) (k : nat) :
  0 ≤ max_concurrent s →
  live_count (run (init s empty_store urls probe) (take k ops))
    ≤ max_concurrent s.
Proof.
  intros Hmax.
  rewrite <- (init_settings s empty_store urls probe) at 2.
  apply run_within_capacity. rewrite init_settings.
  pose proof (init_instances s empty_store urls probe) as Hsub.
  apply sublist_nil_r in Hsub. unfold live_count. rewrite Hsub. simpl. lia.
Qed.

Lemma live_count_within_limit_witness :
  live_count
    (run (init (with_limit 2 default_settings) empty_store three_urls all_alive)
       (take 3 [StartNext (quiet_world 4001); StartNext (quiet_world 4002);
                StartNext (quiet_world 4003); Stop 1 all_alive]))
    ≤ max_concurrent (with_limit 2 default_settings).
Proof.
  apply (live_count_within_limit (with_limit 2 default_settings)).
  simpl. lia.
Defined.

(** C1 as stated fails for a negative limit, which [--max-concurrent]
    accepts ([type=int]): the controller that has started nothing already
    counts more live instances than the limit, and every start is
    refused. *)
Lemma negative_limit_exceeded :
  let s := with_limit (-1) default_settings in
  let c := run (init s empty_store three_urls all_alive)
             [StartNext (quiet_world 4001)] in
  max_concurrent s = -1 ∧
  live_count c = 0 ∧
  ¬ live_count c ≤ max_concurrent s ∧
  ∀ w, (start_next w c).1.1 = CapacityFull (-1).
Proof. by vm_compute. Qed.

(** The limit is reached in that run: two of the three URLs are admitted
    and the third start is refused. *)
Example limit_reached :
  let c := run (init (with_limit 2 default_settings) empty_store three_urls
                  all_alive)
             [StartNext (quiet_world 4001); StartNext (quiet_world 4002)] in
  live_count c = 2 ∧
  (start_next (quiet_world 4003) c).1.1 = CapacityFull 2.
Proof. by vm_compute. Qed.

(** C2, as amended.  When the number of live instances is at least
    [max_concurrent], [start_next] returns [False] without raising, makes
    no call to the outside world and leaves the whole controller (queue,
    instances, store, id counter) as it was; the message is the one for a
    full list when the queue holds an item and the one for an empty queue
    otherwise. *)
Theorem start_next_at_capacity (w : spawn_world) (c : controller) :
  max_concurrent (ctl_settings c) ≤ live_count c →
  (start_next w c).2 = c ∧
  (start_next w c).1.2 = [] ∧
  next_ok (start_next w c).1.1 = false ∧
  (start_next w c).1.1 =
    match queue c with
    | [] => QueueEmpty
    | _ :: _ => CapacityFull (max_concurrent (ctl_settings c))
    end.
Proof.
  intros Hfull. unfold start_next, live_count in *.
  destruct (queue c) as [|item rest]; [done|].
  by destruct (decide _) as [_|Hroom]; [|lia].
Qed.

Lemma start_next_at_capacity_witness :
  let c := run (init (with_limit 2 default_settings) empty_store three_urls
                  all_alive)
             [StartNext (quiet_world 4001); StartNext (quiet_world 4002)] in
  (start_next (quiet_world 4003) c).2 = c ∧
  (start_next (quiet_world 4003) c).1.2 = [] ∧
  next_ok (start_next (quiet_world 4003) c).1.1 = false ∧
  (start_next (quiet_world 4003) c).1.1 =
    match queue c with
    | [] => QueueEmpty
    | _ :: _ => CapacityFull (max_concurrent (ctl_settings c))
    end.
Proof.
  apply (start_next_at_capacity (quiet_world 4003)). vm_compute. discriminate.
Defined.

(** C2 as stated fails: with one live instance, a limit of one and
    nothing queued, [start_next] reports an empty queue, not a full
    list. *)
Lemma start_next_full_but_queue_empty :
  let c := run (init (with_limit 1 default_settings) empty_store
                  ["http://a.example/1"%string] all_alive)
             [StartNext (quiet_world 4001)] in
  max_concurrent (ctl_settings c) ≤ live_count c ∧
  (start_next (quiet_world 4002) c).1.1 = QueueEmpty ∧
  (start_next (quiet_world 4002) c).1.1
    ≠ CapacityFull (max_concurrent (ctl_settings c)).
Proof. by vm_compute. Qed.

(** * Failed admission *)

(** A call of [start_taby] that returns [False] changes nothing. *)
Lemma start_taby_failure (w : spawn_world) (url : string) (instance_id : Z)
    (c : controller) :
  start_ok (start_taby w url instance_id c).1.1 = false →
  (start_taby w url instance_id c).2 = c.
Proof.
  intros Hno.
  destruct (start_taby_cases w url instance_id c)
    as [[_ ->]|(p & _ & _ & Hyes & _)]; [done|].
  by rewrite Hyes in Hno.
Qed.

(** C5, as amended.  When [start_next] tries the head of the queue and
    [start_taby] reports that the start failed (a port in use or outside
    0..65535, [Popen] or the opening of the log file raising, the INSERT
    of the instance raising), the controller is left as it was: the item
    is still the head of the queue, the queue is the same list, and the
    id counter has not moved. *)
Theorem failed_start_keeps_head (w : spawn_world) (c : controller)
    (why : start_result) :
  (start_next w c).1.1 = NotStarted why →
  (∃ item rest, queue c = item :: rest ∧
                queue (start_next w c).2 = item :: rest) ∧
  next_instance_id (start_next w c).2 = next_instance_id c ∧
  (start_next w c).2 = c.
Proof.
  unfold start_next. destruct (queue c) as [|item rest] eqn:Hq; [done|].
  destruct (decide _) as [Hfull|Hroom]; [done|].
  pose proof (start_taby_failure w (q_url item) (next_instance_id c) c) as Hf.
  destruct (start_taby w (q_url item) (next_instance_id c) c)
    as [[r effs] c']; simpl in *.
  destruct (start_ok r); [done|]. simpl. intros _.
  rewrite Hf by done. rewrite Hq. repeat split; try done.
  by exists item, rest.
Qed.

(** A port in use is such a failure: the second URL is not started while
    something listens on the RTSP port of instance 1. *)
Lemma failed_start_keeps_head_witness :
  let c := init default_settings empty_store three_urls all_alive in
  (∃ item rest, queue c = item :: rest ∧
                queue (start_next (busy_world 4001) c).2 = item :: rest) ∧
  next_instance_id (start_next (busy_world 4001) c).2 = next_instance_id c ∧
  (start_next (busy_world 4001) c).2 = c.
Proof.
  apply (failed_start_keeps_head (busy_world 4001)
           (init default_settings empty_store three_urls all_alive)
           (RtspPortInUse 8564)).
  reflexivity.
Defined.

(** C5 as stated fails for a script that starts and exits at once with
    a status that is not zero: [start_taby] never polls the process it
    has launched, so the start counts as a success, the item leaves the
    queue and the id is used. *)
Lemma immediate_exit_consumes_head :
  let c := init default_settings empty_store three_urls all_alive in
  let w := failing_script 4001 in
  exit_status w = Some 1 ∧
  q_url <$> queue c = three_urls ∧
  next_instance_id c = 1 ∧
  (start_next w c).1.1 = Started 1 "http://a.example/1" ∧
  q_url <$> queue (start_next w c).2
    = ["https://b.example/2"; "http://c.example/3"]%string ∧
  next_instance_id (start_next w c).2 = 2.
Proof. by vm_compute. Qed.

(** Whatever became of the script, [start_next] does the same. *)
Lemma exit_status_not_read (status : option Z) (w : spawn_world)
    (c : controller) :
  start_next (exits_with status w) c = start_next w c.
Proof. reflexivity. Qed.

(** Either occupied port stops the admission. *)
Lemma port_conflict_not_started (w : spawn_world) (c : controller)
    (item : queue_item) (rest : list queue_item) :
  queue c = item :: rest →
  live_count c < max_concurrent (ctl_settings c) →
  let s := ctl_settings c in
  let rtsp := port_of (rtsp_base_port s) (next_instance_id c) (port_increment s) in
  let http := port_of (http_base_port s) (next_instance_id c) (port_increment s) in
  0 ≤ rtsp ≤ 65535 → 0 ≤ http ≤ 65535 →
  connect_ex w rtsp = 0 ∨ connect_ex w http = 0 →
  (start_next w c).1.1 = NotStarted (RtspPortInUse rtsp) ∨
  (start_next w c).1.1 = NotStarted (HttpPortInUse http).
Proof.
  intros Hq Hroom s rtsp http Hr Hh Hbusy. unfold start_next, live_count in *.
  rewrite Hq. destruct (decide _) as [Hfull|_]; [lia|].
  unfold start_taby, check_port_availability. fold s rtsp http.
  rewrite !decide_True by done.
  destruct (connect_ex w rtsp =? 0) eqn:Hc1; simpl; [by left|].
  destruct (connect_ex w http =? 0) eqn:Hc2; simpl; [by right|].
  apply Z.eqb_neq in Hc1, Hc2. by destruct Hbusy.
Qed.

(** * Stopping *)

Lemma find_id_none (instance_id : Z) (l : list instance) :
  instance_id ∉ inst_id <$> l →
  find (λ i, bool_decide (inst_id i = instance_id)) l = None.
Proof.
  induction l as [|i l IH]; simpl; [done|]. intros Hnot.
  rewrite not_elem_of_cons in Hnot. destruct Hnot as [Hne Hnot].
  rewrite bool_decide_eq_false_2 by done. by apply IH.
Qed.

(** C6.  When [stop_instance] returns [True], the id is in neither
    [self.instances] nor the table [instances], and stopping it again,
    whatever [os.kill] would do, reports that the instance is not found,
    returns [False] and changes nothing. *)
Theorem stopped_instance_is_gone (kill : Z → kill_result) (instance_id : Z)
    (c : controller) :
  (stop_instance kill instance_id c).1.1 = Stopped →
  let c' := (stop_instance kill instance_id c).2 in
  instance_id ∈ (inst_id <$> instances c) ∧
  (instance_id ∉ (inst_id <$> instances c')) ∧
  (instance_id ∉ (inst_id <$> instances_table (db c'))) ∧
  ∀ kill', stop_instance kill' instance_id c' = (StopNotFound, [], c').
Proof.
  unfold stop_instance.
  destruct (find _ _) as [i|] eqn:Hfind; [|done].
  apply find_some in Hfind as [Hin Hid]. apply bool_decide_eq_true in Hid.
  assert (Hgone : instance_id ∉ inst_id <$> instances (forget_instance instance_id c)).
  { apply delete_row_absent. }
  assert (Hwas : instance_id ∈ inst_id <$> instances c).
  { apply list_elem_of_fmap. exists i. by rewrite list_elem_of_In. }
  destruct (kill (pid i)); simpl; intros Hst; try done;
    (repeat split; [done|done|apply delete_row_absent|]);
    intros kill'; by rewrite find_id_none.
Qed.

Lemma stopped_instance_is_gone_witness :
  let c := run (init default_settings empty_store three_urls all_alive)
             [StartNext (quiet_world 4001); StartNext (quiet_world 4002)] in
  let c' := (stop_instance all_alive 1 c).2 in
  1 ∈ (inst_id <$> instances c) ∧
  (1 ∉ (inst_id <$> instances c')) ∧
  (1 ∉ (inst_id <$> instances_table (db c'))) ∧
  ∀ kill', stop_instance kill' 1 c' = (StopNotFound, [], c').
Proof.
  apply (stopped_instance_is_gone all_alive 1
    (run (init default_settings empty_store three_urls all_alive)
       [StartNext (quiet_world 4001); StartNext (quiet_world 4002)])).
  reflexivity.
Defined.

(** * Enqueueing *)

Lemma prefix_starts_with (p s : string) :
  String.prefix p s = true ↔ starts_with p s.
Proof.
  unfold starts_with. revert s.
  induction p as [|a p IH]; intros s.
  - split; [intros _; by exists s|]. intros _. by destruct s.
  - destruct s as [|b s]; simpl.
    + split; [done|]. by intros [rest ?].
    + destruct (Ascii.ascii_dec a b) as [->|Hne].
      * rewrite IH. split; intros [rest Hr]; exists rest.
        -- change (String b p +:+ rest) with (String b (p +:+ rest)).
           by rewrite Hr.
        -- change (String b p +:+ rest) with (String b (p +:+ rest)) in Hr.
           by injection Hr.
      * split; [done|]. intros [rest Hr].
        change (String a p +:+ rest) with (String a (p +:+ rest)) in Hr.
        by injection Hr.
Qed.

Lemma valid_url_starts_with (url : string) :
  valid_url url = true ↔
  starts_with "http://" url ∨ starts_with "https://" url.
Proof.
  unfold valid_url. rewrite orb_true_iff.
  by rewrite !prefix_starts_with.
Qed.

Lemma clean_loop_effects (probe : Z → kill_result) (l : list instance)
    (effs : list effect) (c : controller) :
  forallb (λ e, negb (spawns_process e)) effs = true →
  forallb (λ e, negb (spawns_process e))
    (foldl (clean_one probe) (effs, c) l).1 = true.
Proof.
  revert c effs. induction l as [|i l IH]; intros c effs Heffs; simpl; [done|].
  destruct (probe (pid i)); apply IH;
    rewrite forallb_app, Heffs; reflexivity.
Qed.

(** C9.  [add_to_queue] changes the queue and its table only: the
    instance list, the instance table, the id counter and the settings
    are the ones before, and no call goes to the outside world.  More,
    among all commands only start-next can add an instance, move the id
    counter, or run a program. *)
Theorem enqueue_only_queues (url : string) (o : op) (c : controller) :
  (instances (add_to_queue url c).2 = instances c ∧
   instances_table (db (add_to_queue url c).2) = instances_table (db c) ∧
   next_instance_id (add_to_queue url c).2 = next_instance_id c ∧
   ctl_settings (add_to_queue url c).2 = ctl_settings c ∧
   step_effects c (Enqueue url) = []) ∧
  match o with
  | StartNext _ => True
  | _ =>
      instances (step c o) `sublist_of` instances c ∧
      next_instance_id (step c o) = next_instance_id c ∧
      forallb (λ e, negb (spawns_process e)) (step_effects c o) = true
  end.
Proof.
  split.
  - destruct (add_to_queue_frame url c) as (-> & -> & -> & ->). done.
  - destruct o as [u|q|w|i kill|probe]; simpl; try done.
    + by destruct (add_to_queue_frame u c) as (-> & _ & -> & _).
    + destruct (stop_instance_frame kill i c) as (_ & -> & _ & Hs).
      repeat split; try done. unfold stop_instance.
      destruct (find _ _) as [x|]; [|done]. by destruct (kill (pid x)).
    + destruct (clean_instances_frame probe c) as (_ & -> & _ & _ & Hs).
      repeat split; try done. by apply clean_loop_effects.
Qed.

(** C10.  [add_to_queue] reports an invalid URL exactly when the URL
    starts with neither ["http://"] nor ["https://"]; then the controller,
    store included, is the one before.  Any URL with one of the two
    prefixes is queued. *)
Theorem enqueue_checks_scheme_only (url : string) (c : controller) :
  ((add_to_queue url c).1 = InvalidUrl ↔
   ¬ (starts_with "http://" url ∨ starts_with "https://" url)) ∧
  match (add_to_queue url c).1 with
  | InvalidUrl => (add_to_queue url c).2 = c
  | Added queue_id =>
      queue (add_to_queue url c).2 = queue c ++ [QueueItem queue_id url] ∧
      QueueItem queue_id url ∈ queue_table (db (add_to_queue url c).2)
  end.
Proof.
  rewrite <- valid_url_starts_with. unfold add_to_queue, insert_queue.
  destruct (valid_url url); simpl.
  - split; [split; [done|by intros []]|]. split; [done|].
    generalize (py_max (q_id <$> queue_table (db c)) 0 + 1).
    intros k. induction (queue_table (db c)) as [|x t IH]; simpl.
    + apply list_elem_of_singleton. done.
    + destruct (decide _); [apply elem_of_cons; by left|].
      apply elem_of_cons. by right.
  - split; [|done]. split; [by intros _ ?|done].
Qed.

(** * Instance ids *)

(** What a successful [start_next] did. *)
Lemma started_record (w : spawn_world) (c : controller) (instance_id : Z)
    (url : string) :
  (start_next w c).1.1 = Started instance_id url →
  instance_id = next_instance_id c ∧
  next_instance_id (start_next w c).2 = next_instance_id c + 1 ∧
  ∃ p item rest,
    popen w = Some p ∧ queue c = item :: rest ∧ url = q_url item ∧
    instances (start_next w c).2 =
      instances c ++ [new_instance (ctl_settings c) url instance_id p].
Proof.
  unfold start_next. destruct (queue c) as [|item rest] eqn:Hq; [done|].
  destruct (decide _) as [Hfull|Hroom]; [done|].
  destruct (start_taby_cases w (q_url item) (next_instance_id c) c)
    as [[Hno Hsame]|(p & Hp & Hk & Hyes & Hc')];
    destruct (start_taby w (q_url item) (next_instance_id c) c)
      as [[r effs] c']; simpl in *.
  - by rewrite Hno.
  - subst r c'. simpl. intros [= <- <-]. repeat split. by exists p, item, rest.
Qed.

Lemma not_started_same (w : spawn_world) (c : controller) :
  next_ok (start_next w c).1.1 = false → (start_next w c).2 = c.
Proof.
  unfold start_next. destruct (queue c) as [|item rest]; [done|].
  destruct (decide _) as [Hfull|Hroom]; [done|].
  pose proof (start_taby_failure w (q_url item) (next_instance_id c) c) as Hf.
  destruct (start_taby w (q_url item) (next_instance_id c) c)
    as [[r effs] c']; simpl in *.
  destruct (start_ok r); [done|]. intros _. by apply Hf.
Qed.

Lemma step_next_id (c : controller) (o : op) :
  (assigned c o = [] ∧ next_instance_id (step c o) = next_instance_id c) ∨
  (assigned c o = [next_instance_id c] ∧
   next_instance_id (step c o) = next_instance_id c + 1).
Proof.
  destruct o as [u|q|w|i kill|probe]; simpl.
  - left. by destruct (add_to_queue_frame u c) as (_ & _ & -> & _).
  - by left.
  - pose proof (started_record w c) as Hyes.
    pose proof (not_started_same w c) as Hno.
    destruct (start_next w c) as [[r effs] c']; simpl in *.
    destruct r as [| | |id url]; try (left; by rewrite Hno).
    right. by destruct (Hyes id url eq_refl) as (-> & -> & _).
  - left. by destruct (stop_instance_frame kill i c) as (_ & -> & _).
  - left. by destruct (clean_instances_frame probe c) as (_ & -> & _).
Qed.

Lemma assigned_ids_consecutive (c : controller) (ops : list op) :
  assigned_ids c ops =
    seqZ (next_instance_id c) (Z.of_nat (length (assigned_ids c ops))).
Proof.
  revert c. induction ops as [|o ops IH]; intros c; simpl; [done|].
  destruct (step_next_id c o) as [[-> Hn]|[-> Hn]]; simpl.
  - rewrite <- Hn. apply IH.
  - rewrite seqZ_cons by lia. f_equal.
    replace (Z.pred (Z.of_nat (S (length (assigned_ids (step c o) ops)))))
      with (Z.of_nat (length (assigned_ids (step c o) ops))) by lia.
    replace (Z.succ (next_instance_id c)) with (next_instance_id (step c o))
      by lia.
    apply IH.
Qed.

Lemma seqZ_sorted (m n : Z) : StronglySorted Z.lt (seqZ m n).
Proof.
  destruct (decide (n ≤ 0)) as [Hn|Hn]; [rewrite seqZ_nil by done; constructor|].
  rewrite <- (Z2Nat.id n) by lia. generalize (Z.to_nat n). clear. intros k.
  revert m. induction k as [|k IH]; intros m; [constructor|].
  rewrite seqZ_cons by lia.
  replace (Z.pred (Z.of_nat (S k))) with (Z.of_nat k) by lia.
  constructor; [apply IH|].
  apply list.Forall_forall. intros x Hx%elem_of_seqZ. lia.
Qed.

(** C4, as amended.  The id counter starts at one more than the largest
    id loaded from the store (1 when none is loaded); the ids given out
    along any sequence of commands are the consecutive values of the
    counter from there, so they strictly increase, none is given twice,
    and each is larger than every id loaded at start-up. *)
Theorem ids_never_reused (s : settings) (d : store) (urls : list string)
    (probe : Z → kill_result) (ops : list op) :
  let c0 := init s d urls probe in
  let ids := assigned_ids c0 ops in
  next_instance_id c0 = py_max (inst_id <$> instances_table d) 0 + 1 ∧
  ids = seqZ (next_instance_id c0) (Z.of_nat (length ids)) ∧
  StronglySorted Z.lt ids ∧
  NoDup ids ∧
  Forall (λ i, Forall (λ id, inst_id i < id) ids) (instances_table d).
Proof.
  intros c0 ids.
  pose proof (init_next_instance_id s d urls probe) as Hn. fold c0 in Hn.
  pose proof (assigned_ids_consecutive c0 ops) as Hids. fold ids in Hids.
  repeat split; try done.
  - rewrite Hids. apply seqZ_sorted.
  - rewrite Hids. apply NoDup_seqZ.
  - apply list.Forall_forall. intros i Hi.
    apply list.Forall_forall. intros id Hid.
    rewrite Hids in Hid. apply elem_of_seqZ in Hid.
    assert (Hge : inst_id i ≤ py_max (inst_id <$> instances_table d) 0).
    { apply py_max_ge, list_elem_of_fmap. by exists i. }
    lia.
Qed.

(** C4 as stated fails: after instances 1 and 2 were started and 2 was
    stopped, the largest id in use is 1, and the next instance gets id 3,
    not 2. *)
Lemma next_id_is_not_max_plus_one :
  let c := run (init default_settings empty_store three_urls all_alive)
             [StartNext (quiet_world 4001); StartNext (quiet_world 4002);
              Stop 2 all_alive] in
  inst_id <$> instances c = [1] ∧
  (start_next (quiet_world 4003) c).1.1 = Started 3 "http://c.example/3" ∧
  3 ≠ py_max (inst_id <$> instances c) 0 + 1.
Proof. by vm_compute. Qed.

(** * Ports *)

Lemma new_instance_allocated (s : settings) (url : string) (instance_id p : Z) :
  allocated_by s (new_instance s url instance_id p).
Proof. done. Qed.

Lemma Forall_sublist {A : Type} (P : A → Prop) (l k : list A) :
  l `sublist_of` k → Forall P k → Forall P l.
Proof.
  intros Hsub Hk. apply list.Forall_forall. intros x Hx.
  rewrite list.Forall_forall in Hk. apply Hk. by eapply elem_of_sublist.
Qed.

Lemma step_allocated (c : controller) (o : op) :
  Forall (allocated_by (ctl_settings c)) (instances c) →
  Forall (allocated_by (ctl_settings c)) (instances (step c o)).
Proof.
  intros Hc. destruct o as [u|q|w|i kill|probe]; simpl.
  - by destruct (add_to_queue_frame u c) as (-> & _).
  - done.
  - pose proof (started_record w c) as Hyes.
    pose proof (not_started_same w c) as Hno.
    destruct (start_next w c) as [[r effs] c']; simpl in *.
    destruct r as [| | |id url]; try by rewrite Hno.
    destruct (Hyes id url eq_refl) as (_ & _ & p & item & rest & _ & _ & _ & ->).
    apply Forall_app. split; [done|]. repeat constructor.
  - eapply Forall_sublist; [apply stop_instance_frame|done].
  - eapply Forall_sublist; [apply clean_instances_frame|done].
Qed.

Lemma run_allocated (c : controller) (ops : list op) :
  Forall (allocated_by (ctl_settings c)) (instances c) →
  Forall (allocated_by (ctl_settings c)) (instances (run c ops)).
Proof.
  revert c. induction ops as [|o ops IH]; intros c Hc; simpl; [done|].
  rewrite <- (step_settings c o). apply IH. rewrite step_settings.
  by apply step_allocated.
Qed.

(** C3, as amended.  [start_taby] gives instance [i] the ports
    [rtsp_base_port + i * port_increment] and
    [http_base_port + i * port_increment].  When [port_increment] is not
    zero and the instances found in the store at start-up were given
    their ports under the same settings, any two instances with distinct
    ids, at any point of any sequence of commands, differ in their RTSP
    port and in their HTTP port. *)
Theorem ports_follow_ids (s : settings) (d : store) (urls : list string)
    (probe : Z → kill_result) (ops : list op) :
  port_increment s ≠ 0 →
  Forall (allocated_by s) (instances_table d) →
  let c := run (init s d urls probe) ops in
  (∀ w url instance_id c1,
     (start_taby w url instance_id c1).1.1 = TabyStarted →
     ∃ i, instances (start_taby w url instance_id c1).2 = instances c1 ++ [i] ∧
          inst_id i = instance_id ∧
          rtsp_port i = rtsp_base_port (ctl_settings c1)
                        + instance_id * port_increment (ctl_settings c1) ∧
          http_port i = http_base_port (ctl_settings c1)
                        + instance_id * port_increment (ctl_settings c1)) ∧
  Forall (allocated_by s) (instances c) ∧
  ∀ i j, i ∈ instances c → j ∈ instances c → inst_id i ≠ inst_id j →
         rtsp_port i ≠ rtsp_port j ∧ http_port i ≠ http_port j.
Proof.
  intros Hinc Hd c.
  assert (Hall : Forall (allocated_by s) (instances c)).
  { subst c. pose proof (run_allocated (init s d urls probe) ops) as Hrun.
    rewrite init_settings in Hrun. apply Hrun.
    eapply Forall_sublist; [apply init_instances|done]. }
  split; [|split; [done|]].
  - intros w url instance_id c1 Hyes.
    destruct (start_taby_cases w url instance_id c1)
      as [[Hno _]|(p & _ & _ & _ & ->)]; [by rewrite Hyes in Hno|].
    simpl. by eexists.
  - intros i j Hi Hj Hne. rewrite list.Forall_forall in Hall.
    destruct (Hall i Hi) as [-> ->]. destruct (Hall j Hj) as [-> ->].
    split; nia.
Qed.

Lemma ports_follow_ids_witness :
  let c := run (init default_settings empty_store three_urls all_alive)
             [StartNext (quiet_world 4001); StartNext (quiet_world 4002)] in
  (∀ w url instance_id c1,
     (start_taby w url instance_id c1).1.1 = TabyStarted →
     ∃ i, instances (start_taby w url instance_id c1).2 = instances c1 ++ [i] ∧
          inst_id i = instance_id ∧
          rtsp_port i = rtsp_base_port (ctl_settings c1)
                        + instance_id * port_increment (ctl_settings c1) ∧
          http_port i = http_base_port (ctl_settings c1)
                        + instance_id * port_increment (ctl_settings c1)) ∧
  Forall (allocated_by default_settings) (instances c) ∧
  ∀ i j, i ∈ instances c → j ∈ instances c → inst_id i ≠ inst_id j →
         rtsp_port i ≠ rtsp_port j ∧ http_port i ≠ http_port j.
Proof.
  apply (ports_follow_ids default_settings empty_store three_urls all_alive).
  - simpl. lia.
  - simpl. constructor.
Defined.

(** C3 as stated fails for a port increment of zero: instances 1 and 2
    are both live and both on RTSP port 8554 and HTTP port 8080. *)
Lemma zero_increment_shares_ports :
  let c := run (init (with_increment 0 default_settings) empty_store
                  three_urls all_alive)
             [StartNext (quiet_world 4001); StartNext (quiet_world 4002)] in
  inst_id <$> instances c = [1; 2] ∧
  rtsp_port <$> instances c = [8554; 8554] ∧
  http_port <$> instances c = [8080; 8080].
Proof. by vm_compute. Qed.

(** The same happens across a restart under other settings: instance 1,
    started with an increment of 10, and instance 2, started after a
    restart with an increment of 5, are both on RTSP port 8564. *)
Example restart_shares_ports :
  let c1 := run (init default_settings empty_store three_urls all_alive)
              [StartNext (quiet_world 4001)] in
  let c2 := run (init (with_increment 5 default_settings) (db c1) [] all_alive)
              [StartNext (quiet_world 4002)] in
  inst_id <$> instances c2 = [1; 2] ∧
  rtsp_port <$> instances c2 = [8564; 8564].
Proof. by vm_compute. Qed.

(** * Reclaiming dead instances *)

Lemma filter_ext_elem {A : Type} (P Q : A → Prop)
    `{!∀ x, Decision (P x)} `{!∀ x, Decision (Q x)} (l : list A) :
  (∀ x, x ∈ l → (P x ↔ Q x)) → filter P l = filter Q l.
Proof.
  induction l as [|x l IH]; intros Hext; [done|].
  rewrite !filter_cons.
  assert (Hl : filter P l = filter Q l).
  { apply IH. intros y Hy. apply Hext. by right. }
  destruct (decide (P x)) as [HP|HP], (decide (Q x)) as [HQ|HQ];
    rewrite ?Hl; try done; exfalso;
    [apply HQ|apply HP]; by apply (Hext x); [left|].
Qed.

Lemma filter_all {A : Type} (P : A → Prop) `{!∀ x, Decision (P x)}
    (l : list A) :
  (∀ x, x ∈ l → P x) → filter P l = l.
Proof.
  induction l as [|x l IH]; intros Hall; [done|].
  rewrite filter_cons_True by (apply Hall; by left).
  rewrite IH; [done|]. intros y Hy. apply Hall. by right.
Qed.

(** The loop of [clean_instances] over a snapshot [l] removes, from the
    list and from the table, the records that carry the id of a dead
    record of [l]. *)
Lemma clean_loop_removes (probe : Z → kill_result) (l : list instance)
    (effs : list effect) (c : controller) :
  let c' := (foldl (clean_one probe) (effs, c) l).2 in
  instances c' = filter (λ i, inst_id i ∉ dead_ids probe l) (instances c) ∧
  instances_table (db c') =
    filter (λ i, inst_id i ∉ dead_ids probe l) (instances_table (db c)).
Proof.
  revert c effs. induction l as [|x l IH]; intros c effs; simpl.
  - unfold dead_ids. simpl. split; symmetry; apply filter_all;
      intros i _; apply not_elem_of_nil.
  - assert (Hdead : ∀ t : list instance,
      filter (λ i, inst_id i ∉ dead_ids probe l)
        (filter (λ i, inst_id i ≠ inst_id x) t) =
      filter (λ i, inst_id i ∉ inst_id x :: dead_ids probe l) t).
    { intros t. rewrite list_filter_filter. apply filter_ext_elem.
      intros i _. rewrite not_elem_of_cons. tauto. }
    unfold dead_ids in *. rewrite filter_cons.
    destruct (decide (¬ alive probe x)) as [Hx|Hx]; unfold alive in Hx.
    + destruct (decide (probe (pid x) = KillNoProcess)) as [Hgone|Hnot];
        [|by destruct Hx].
      rewrite Hgone.
      destruct (IH (forget_instance (inst_id x) c)
                  (effs ++ [Kill (pid x) SIG0])) as [-> ->].
      cbn [forget_instance instances db delete_instance instances_table].
      unfold delete_row. rewrite !Hdead. done.
    + destruct (probe (pid x)) eqn:Hp; try apply IH.
      exfalso. apply Hx. intros Hne. by apply Hne.
Qed.

(** With ids that are unique, that is the records that are dead. *)
Lemma filter_dead_ids (probe : Z → kill_result) (l : list instance) :
  NoDup (inst_id <$> l) →
  filter (λ i, inst_id i ∉ dead_ids probe l) l = filter (alive probe) l.
Proof.
  intros Hnd. apply filter_ext_elem. intros i Hi. unfold dead_ids. split.
  - intros Hnot Hdead. apply Hnot. apply list_elem_of_fmap.
    exists i. split; [done|]. apply list_elem_of_filter. split; [|done].
    by intros Hal.
  - intros Hal [j [Hid [Hdead Hj]%list_elem_of_filter]]%list_elem_of_fmap.
    assert (i = j) as ->; [|done].
    apply (NoDup_fmap_1 inst_id) in Hnd as Hl.
    apply list_elem_of_lookup in Hi as [n Hn].
    apply list_elem_of_lookup in Hj as [m Hm].
    assert (n = m) as ->; [|congruence].
    eapply NoDup_lookup; [exact Hnd| |];
      rewrite list_lookup_fmap; [by rewrite Hn|by rewrite Hm, Hid].
Qed.

Lemma clean_instances_removes_dead (probe : Z → kill_result) (c : controller) :
  consistent c →
  let c' := (clean_instances probe c).2 in
  instances c' = filter (alive probe) (instances c) ∧
  instances_table (db c') = filter (alive probe) (instances_table (db c)).
Proof.
  intros Hc. unfold clean_instances.
  destruct (clean_loop_removes probe (instances c) [] c) as [Hi Ht].
  simpl. rewrite Hi, Ht. rewrite <- (instances_mirrored c Hc).
  pose proof (sorted_keys_NoDup inst_id _ (instances_sorted c Hc)) as Hnd.
  by rewrite !filter_dead_ids.
Qed.

(** C7.  In any state the controller reaches from a database file, one
    pass of [clean_instances] leaves in [self.instances] and in the table
    [instances] exactly the records whose process the probe did not
    report gone, each unchanged and in the same order, and removes the
    others; the queue, its table and the id counter are not touched. *)
Theorem clean_removes_exactly_the_dead (s : settings) (d : store)
    (urls : list string) (probe0 probe : Z → kill_result) (ops : list op) :
  store_ok d →
  let c := run (init s d urls probe0) ops in
  let c' := (clean_instances probe c).2 in
  instances c' = filter (alive probe) (instances c) ∧
  instances_table (db c') = filter (alive probe) (instances_table (db c)) ∧
  (∀ i, i ∈ instances c' ↔ i ∈ instances c ∧ alive probe i) ∧
  queue c' = queue c ∧
  queue_table (db c') = queue_table (db c) ∧
  next_instance_id c' = next_instance_id c.
Proof.
  intros Hd c c'.
  assert (Hc : consistent c) by by apply run_consistent, init_consistent.
  destruct (clean_instances_removes_dead probe c Hc) as [Hi Ht].
  destruct (clean_instances_frame probe c) as (_ & Hn & Hq & Hqt & _).
  subst c'. split; [done|]. split; [done|]. split; [|done].
  intros i. rewrite Hi, list_elem_of_filter. tauto.
Qed.

Lemma clean_removes_exactly_the_dead_witness :
  let c := run (init default_settings empty_store three_urls all_alive)
             [StartNext (quiet_world 4001); StartNext (quiet_world 4002)] in
  let c' := (clean_instances first_died c).2 in
  instances c' = filter (alive first_died) (instances c) ∧
  instances_table (db c') =
    filter (alive first_died) (instances_table (db c)) ∧
  (∀ i, i ∈ instances c' ↔ i ∈ instances c ∧ alive first_died i) ∧
  queue c' = queue c ∧
  queue_table (db c') = queue_table (db c) ∧
  next_instance_id c' = next_instance_id c.
Proof.
  apply (clean_removes_exactly_the_dead default_settings empty_store
           three_urls all_alive first_died).
  constructor; simpl; constructor.
Defined.

Example clean_keeps_second :
  let c := run (init default_settings empty_store three_urls all_alive)
             [StartNext (quiet_world 4001); StartNext (quiet_world 4002)] in
  inst_id <$> instances (clean_instances first_died c).2 = [2] ∧
  inst_id <$> instances_table (db (clean_instances first_died c).2) = [2].
Proof. by vm_compute. Qed.

(** * Order of admission *)

(** One command keeps the pending items in their order: it removes some,
    or appends the one it adds at the tail. *)
Lemma step_queue_order (c : controller) (o : op) :
  queue (step c o) `sublist_of` queue c ++ enqueued c o.
Proof.
  destruct o as [u|q|w|i kill|probe]; simpl; rewrite ?app_nil_r.
  - unfold add_to_queue, insert_queue. destruct (valid_url u); simpl.
    + done.
    + by rewrite app_nil_r.
  - apply sublist_filter.
  - unfold start_next. destruct (queue c) as [|item rest] eqn:Hq;
      simpl; [by rewrite Hq|].
    destruct (decide _) as [Hfull|Hroom]; simpl; [by rewrite Hq|].
    destruct (start_taby_cases w (q_url item) (next_instance_id c) c)
      as [[Hno Hsame]|(p & Hp & Hk & Hyes & Hc')];
      destruct (start_taby w (q_url item) (next_instance_id c) c)
        as [[r effs] c']; simpl in *.
    + rewrite Hno. simpl. subst c'. by rewrite Hq.
    + subst r c'. simpl. rewrite Hq. apply sublist_filter.
  - by destruct (stop_instance_frame kill i c) as (_ & _ & -> & _).
  - by destruct (clean_instances_frame probe c) as (_ & _ & -> & _).
Qed.

Lemma run_queue_order (c : controller) (ops : list op) :
  queue (run c ops) `sublist_of` queue c ++ arrivals c ops.
Proof.
  revert c. induction ops as [|o ops IH]; intros c; simpl.
  - by rewrite app_nil_r.
  - etrans; [apply IH|]. rewrite app_assoc.
    apply sublist_app; [apply step_queue_order|done].
Qed.

(** C8.  In any state the controller reaches from a database file the
    pending items are in the order in which they were queued: the queue is
    an order-preserving selection from the items loaded at start-up
    followed by the items queued since, oldest first, and its ids
    increase.  On a queue with head [item], [start_next] either refuses
    for lack of room, or tries [item] and nothing else: a failed start
    leaves the queue as it is, a successful one starts an instance for the
    URL of [item] and leaves the rest of the queue in its order. *)
Theorem admission_is_fifo (s : settings) (d : store) (urls : list string)
    (probe : Z → kill_result) (ops : list op) (w : spawn_world) :
  store_ok d →
  let c0 := init s d urls probe in
  let c := run c0 ops in
  queue c `sublist_of` queue c0 ++ arrivals c0 ops ∧
  StronglySorted Z.lt (q_id <$> queue c) ∧
  match queue c with
  | [] => start_next w c = (QueueEmpty, [], c)
  | item :: rest =>
      (max_concurrent (ctl_settings c) ≤ live_count c ∧
       start_next w c = (CapacityFull (max_concurrent (ctl_settings c)), [], c)) ∨
      (live_count c < max_concurrent (ctl_settings c) ∧
       ((∃ why, (start_next w c).1.1 = NotStarted why ∧
                queue (start_next w c).2 = item :: rest) ∨
        (∃ p, (start_next w c).1.1 =
                Started (next_instance_id c) (q_url item) ∧
              queue (start_next w c).2 = rest ∧
              instances (start_next w c).2 =
                instances c ++
                [new_instance (ctl_settings c) (q_url item)
                   (next_instance_id c) p])))
  end.
Proof.
  intros Hd c0 c.
  assert (Hc : consistent c) by by apply run_consistent, init_consistent.
  split; [apply run_queue_order|]. split; [apply Hc|].
  destruct (start_next_cases w c Hc)
    as [[Hq Hr]|[(Hq & Hfull & Hr)|(item & rest & Hq & Hroom &
         [(why & effs & _ & Hr)|(p & effs & _ & Hr)])]].
  - by rewrite Hq.
  - destruct (queue c) as [|item rest]; [done|]. by left.
  - rewrite Hq. right. split; [done|]. left. exists why.
    rewrite Hr. simpl. by rewrite Hq.
  - rewrite Hq. right. split; [done|]. right. exists p. by rewrite Hr.
Qed.

Lemma admission_is_fifo_witness :
  let c0 := init (with_limit 2 default_settings) empty_store three_urls
              all_alive in
  let c := run c0 [StartNext (quiet_world 4001);
                   Enqueue "https://d.example/4"] in
  let w := quiet_world 4002 in
  queue c `sublist_of` queue c0 ++ arrivals c0
    [StartNext (quiet_world 4001); Enqueue "https://d.example/4"] ∧
  StronglySorted Z.lt (q_id <$> queue c) ∧
  match queue c with
  | [] => start_next w c = (QueueEmpty, [], c)
  | item :: rest =>
      (max_concurrent (ctl_settings c) ≤ live_count c ∧
       start_next w c = (CapacityFull (max_concurrent (ctl_settings c)), [], c)) ∨
      (live_count c < max_concurrent (ctl_settings c) ∧
       ((∃ why, (start_next w c).1.1 = NotStarted why ∧
                queue (start_next w c).2 = item :: rest) ∨
        (∃ p, (start_next w c).1.1 =
                Started (next_instance_id c) (q_url item) ∧
              queue (start_next w c).2 = rest ∧
              instances (start_next w c).2 =
                instances c ++
                [new_instance (ctl_settings c) (q_url item)
                   (next_instance_id c) p])))
  end.
Proof.
  apply (admission_is_fifo (with_limit 2 default_settings) empty_store
           three_urls all_alive
           [StartNext (quiet_world 4001); Enqueue "https://d.example/4"]
           (quiet_world 4002)).
  constructor; simpl; constructor.
Defined.

(** In that run the second URL is the one started, and the URL queued
    last stays last. *)
Example second_url_is_next :
  let c := run (init (with_limit 2 default_settings) empty_store three_urls
                  all_alive)
             [StartNext (quiet_world 4001); Enqueue "https://d.example/4"] in
  (start_next (quiet_world 4002) c).1.1 = Started 2 "https://b.example/2" ∧
  q_url <$> queue (start_next (quiet_world 4002) c).2 =
    ["http://c.example/3"; "https://d.example/4"]%string.
Proof. by vm_compute. Qed.

(** * The stand-alone script, by example *)

(** With a limit of one, a second start stops the only instance and
    starts the next URL in its place, under the id that was just freed. *)
Example legacy_full_list_evicts :
  let c := (Legacy.start_next (Legacy.calm 100 4001)
              (Legacy.fresh (Legacy.with_limit 1 Legacy.default_settings)
                 three_urls)).2 in
  let c' := (Legacy.start_next (Legacy.calm 101 4002) c).2 in
  Legacy.id <$> Legacy.taby_instances c = [0] ∧
  Legacy.pid <$> Legacy.taby_instances c = [4001] ∧
  Legacy.id <$> Legacy.taby_instances c' = [0] ∧
  Legacy.pid <$> Legacy.taby_instances c' = [4002] ∧
  Legacy.url <$> Legacy.taby_instances c' = ["https://b.example/2"%string].
Proof. by vm_compute. Qed.

(** Ids come from the table at each start, so the id of a stopped
    instance is given again. *)
Example legacy_reuses_ids :
  let c1 := (Legacy.start_next (Legacy.calm 100 4001)
               (Legacy.fresh Legacy.default_settings three_urls)).2 in
  let c2 := (Legacy.start_next (Legacy.calm 101 4002) c1).2 in
  let c3 := (Legacy.stop_taby (Legacy.calm 102 0) 1 c2).2 in
  let c4 := (Legacy.start_next (Legacy.calm 103 4003) c3).2 in
  Legacy.id <$> Legacy.taby_instances c2 = [0; 1] ∧
  Legacy.id <$> Legacy.taby_instances c3 = [0] ∧
  Legacy.id <$> Legacy.taby_instances c4 = [0; 1] ∧
  Legacy.pid <$> Legacy.taby_instances c4 = [4001; 4003].
Proof. by vm_compute. Qed.

(** The URL is taken off the queue before the start; when the start
    raises it is lost. *)
Example legacy_failed_start_drops_url :
  let c := Legacy.fresh Legacy.default_settings three_urls in
  Legacy.start_next (Legacy.broken 100) c =
    (false,
     Legacy.fresh Legacy.default_settings
       ["https://b.example/2"; "http://c.example/3"]%string).
Proof. by vm_compute. Qed.

(** The [add] command starts the URL it queues when there is room. *)
Example legacy_add_starts :
  let c := (Legacy.add (Legacy.calm 100 4001) "http://a.example/1"
              (Legacy.fresh Legacy.default_settings [])).2 in
  Legacy.urls_queue c = [] ∧
  Legacy.url <$> Legacy.taby_instances c = ["http://a.example/1"%string].
Proof. by vm_compute. Qed.

(** [update_statuses] marks the rows of dead processes and removes none;
    the [clean] command removes the marked rows. *)
Example legacy_clean_in_two_steps :
  let c1 := (Legacy.start_next (Legacy.calm 100 4001)
               (Legacy.fresh Legacy.default_settings three_urls)).2 in
  let c2 := (Legacy.start_next (Legacy.calm 101 4002) c1).2 in
  let c3 := (Legacy.update_statuses first_died c2).2 in
  Legacy.state <$> Legacy.taby_instances c3 = [Legacy.Dead; Legacy.Running] ∧
  Legacy.id <$> Legacy.taby_instances (Legacy.clean c2) = [0; 1] ∧
  Legacy.id <$> Legacy.taby_instances (Legacy.clean c3) = [1].
Proof. by vm_compute. Qed.

(** * Memory and store *)

Section KeyFacts.
Context {A : Type} (key : A → Z).

Lemma filter_key_absent (k : Z) (l : list A) :
  k ∉ key <$> l → filter (λ x, key x ≠ k) l = l.
Proof.
  intros Hk. apply filter_all. intros x Hx Heq. apply Hk.
  apply list_elem_of_fmap. by exists x.
Qed.

Lemma filter_key_delete (n : nat) (x : A) (l : list A) :
  NoDup (key <$> l) → l !! n = Some x →
  filter (λ y, key y ≠ key x) l = delete n l.
Proof.
  revert n. induction l as [|y l IH]; intros n Hnd Hn; [done|].
  rewrite fmap_cons in Hnd. apply list.NoDup_cons in Hnd as [Hy Hnd].
  destruct n as [|n]; simpl in *.
  - injection Hn as ->. rewrite filter_cons_False by (intros Hne; by apply Hne).
    by apply filter_key_absent.
  - rewrite filter_cons_True.
    + f_equal. by apply IH.
    + intros Heq. apply Hy. rewrite Heq. apply list_elem_of_fmap.
      exists x. split; [done|]. by eapply list_elem_of_lookup_2.
Qed.

Lemma filter_key_length (k : Z) (l : list A) :
  NoDup (key <$> l) → k ∈ key <$> l →
  S (length (filter (λ x, key x ≠ k) l)) = length l.
Proof.
  intros Hnd [x [-> Hx]]%list_elem_of_fmap.
  apply list_elem_of_lookup in Hx as [n Hn].
  rewrite (filter_key_delete n x) by done.
  rewrite length_delete by eauto.
  apply lookup_lt_Some in Hn. lia.
Qed.
End KeyFacts.

Lemma controller_eta (c : controller) :
  {| ctl_settings := ctl_settings c; queue := queue c;
     instances := instances c; next_instance_id := next_instance_id c;
     db := {| queue_table := queue_table (db c);
              instances_table := instances_table (db c) |} |} = c.
Proof. by destruct c as [? ? ? ? []]. Qed.

(** X1.  In every state the controller reaches from a database file,
    whatever the commands and whatever the world answers, [self.queue] is
    the table [queue] and [self.instances] is the table [instances], row
    for row; no two pending items share an id, no two instances share an
    id, and every instance id is below the id counter. *)
Theorem memory_mirrors_store (s : settings) (d : store) (urls : list string)
    (probe : Z → kill_result) (ops : list op) :
  store_ok d →
  let c := run (init s d urls probe) ops in
  queue c = queue_table (db c) ∧
  instances c = instances_table (db c) ∧
  NoDup (q_id <$> queue c) ∧
  NoDup (inst_id <$> instances c) ∧
  Forall (λ i, inst_id i < next_instance_id c) (instances c).
Proof.
  intros Hd c.
  assert (Hc : consistent c) by by apply run_consistent, init_consistent.
  destruct Hc as [Hq Hi Hqs His Hn].
  repeat split; try done; by apply sorted_keys_NoDup.
Qed.

Lemma memory_mirrors_store_witness :
  let c := run (init default_settings empty_store three_urls all_alive)
             [StartNext (quiet_world 4001); Enqueue "https://d.example/4";
              Dequeue 2; StartNext (busy_world 4002); Clean first_died] in
  queue c = queue_table (db c) ∧
  instances c = instances_table (db c) ∧
  NoDup (q_id <$> queue c) ∧
  NoDup (inst_id <$> instances c) ∧
  Forall (λ i, inst_id i < next_instance_id c) (instances c).
Proof.
  apply (memory_mirrors_store default_settings empty_store three_urls
           all_alive).
  constructor; simpl; constructor.
Defined.

(** X2.  Removing from the queue the id that [add_to_queue] has just
    returned gives back the controller as it was before the URL was
    queued, store included. *)
Theorem enqueue_then_dequeue (s : settings) (d : store) (urls : list string)
    (probe : Z → kill_result) (ops : list op) (url : string) (queue_id : Z) :
  store_ok d →
  let c := run (init s d urls probe) ops in
  (add_to_queue url c).1 = Added queue_id →
  remove_from_queue queue_id (add_to_queue url c).2 = c.
Proof.
  intros Hd c Hadd.
  assert (Hc : consistent c) by by apply run_consistent, init_consistent.
  destruct (valid_url url) eqn:Hv;
    [|by rewrite add_to_queue_rejects in Hadd].
  rewrite add_to_queue_accepts in Hadd |- * by (done || apply Hc).
  simpl in Hadd. injection Hadd as <-.
  unfold remove_from_queue, delete_queue, delete_row. simpl.
  rewrite <- (queue_mirrored c Hc).
  assert (Hfresh : Forall (λ x, q_id x < py_max (q_id <$> queue c) 0 + 1)
                     (queue c)).
  { pose proof (py_max_lt_succ (q_id <$> queue c) 0) as Hlt.
    by rewrite Forall_fmap in Hlt. }
  rewrite list.filter_app, filter_cons_False, filter_nil, app_nil_r
    by (simpl; intros Hne; by apply Hne).
  rewrite filter_all.
  - rewrite (queue_mirrored c Hc) at 2. apply controller_eta.
  - intros x Hx. rewrite list.Forall_forall in Hfresh.
    specialize (Hfresh x Hx). lia.
Qed.

Lemma enqueue_then_dequeue_witness :
  let c := run (init default_settings empty_store three_urls all_alive)
             [StartNext (quiet_world 4001)] in
  remove_from_queue 4 (add_to_queue "https://d.example/4" c).2 = c.
Proof.
  apply (enqueue_then_dequeue default_settings empty_store three_urls
           all_alive [StartNext (quiet_world 4001)] "https://d.example/4" 4).
  - constructor; simpl; constructor.
  - reflexivity.
Defined.

(** X3.  Removing an id that no pending item carries changes nothing,
    in memory or in the store. *)
Theorem dequeue_unknown_id (s : settings) (d : store) (urls : list string)
    (probe : Z → kill_result) (ops : list op) (queue_id : Z) :
  store_ok d →
  let c := run (init s d urls probe) ops in
  queue_id ∉ q_id <$> queue c →
  remove_from_queue queue_id c = c.
Proof.
  intros Hd c Hnot.
  assert (Hc : consistent c) by by apply run_consistent, init_consistent.
  unfold remove_from_queue, delete_queue, delete_row.
  rewrite <- (queue_mirrored c Hc), filter_key_absent by done.
  rewrite (queue_mirrored c Hc) at 2. apply controller_eta.
Qed.

Lemma dequeue_unknown_id_witness :
  let c := init default_settings empty_store three_urls all_alive in
  remove_from_queue 7 c = c.
Proof.
  apply (dequeue_unknown_id default_settings empty_store three_urls
           all_alive [] 7).
  - constructor; simpl; constructor.
  - vm_compute. intros H. repeat (apply elem_of_cons in H as [H|H]; [done|]).
    by apply elem_of_nil in H.
Defined.

(** X4.  Removing the item selected in the window removes the item at
    that position and no other, from the queue and from its table; a
    position past the end of the queue raises and changes nothing. *)
Theorem gui_remove_selected (s : settings) (d : store) (urls : list string)
    (probe0 probe : Z → kill_result) (ops : list op) (selected : nat) :
  store_ok d →
  let c := run (init s d urls probe0) ops in
  match Gui.remove_from_queue selected probe c with
  | Some c' =>
      (selected < length (queue c))%nat ∧
      queue c' = delete selected (queue c) ∧
      queue_table (db c') = delete selected (queue_table (db c))
  | None => (length (queue c) ≤ selected)%nat
  end.
Proof.
  intros Hd c.
  assert (Hc : consistent c) by by apply run_consistent, init_consistent.
  unfold Gui.remove_from_queue, Gui.update_displays.
  destruct (queue c !! selected) as [item|] eqn:Hsel.
  - destruct (clean_instances_frame probe (remove_from_queue (q_id item) c))
      as (_ & _ & -> & -> & _).
    simpl. unfold delete_row. rewrite <- (queue_mirrored c Hc).
    pose proof (sorted_keys_NoDup q_id _ (queue_sorted c Hc)) as Hnd.
    rewrite (filter_key_delete q_id selected item) by done.
    split; [by eapply lookup_lt_Some|done].
  - by apply lookup_ge_None.
Qed.

Lemma gui_remove_selected_witness :
  let c := init default_settings empty_store three_urls all_alive in
  match Gui.remove_from_queue 1 all_alive c with
  | Some c' =>
      (1 < length (queue c))%nat ∧
      queue c' = delete 1%nat (queue c) ∧
      queue_table (db c') = delete 1%nat (queue_table (db c))
  | None => (length (queue c) ≤ 1)%nat
  end.
Proof.
  apply (gui_remove_selected default_settings empty_store three_urls
           all_alive all_alive [] 1).
  constructor; simpl; constructor.
Defined.

(** * More on stopping *)

Lemma find_id_some (instance_id : Z) (l : list instance) :
  instance_id ∈ inst_id <$> l →
  ∃ i, find (λ i, bool_decide (inst_id i = instance_id)) l = Some i.
Proof.
  induction l as [|x l IH]; [by intros ?%elem_of_nil|].
  rewrite fmap_cons. intros [->|Hin]%elem_of_cons; simpl.
  - rewrite bool_decide_eq_true_2 by done. by eexists.
  - destruct (bool_decide _); [by eexists|by apply IH].
Qed.

(** With ids that are unique, the record [stop_instance] finds for the
    id of [i] is [i]. *)
Lemma find_unique (i : instance) (l : list instance) :
  NoDup (inst_id <$> l) → i ∈ l →
  find (λ x, bool_decide (inst_id x = inst_id i)) l = Some i.
Proof.
  induction l as [|x l IH]; [by intros _ ?%elem_of_nil|].
  rewrite fmap_cons.
  intros [Hx Hnd]%list.NoDup_cons [->|Hin]%elem_of_cons; simpl.
  - by rewrite bool_decide_eq_true_2.
  - rewrite bool_decide_eq_false_2; [by apply IH|].
    intros Heq. apply Hx. rewrite Heq. apply list_elem_of_fmap. by exists i.
Qed.

(** X5.  [stop_instance] reports that the instance is not found exactly
    when no entry of [self.instances] carries the id; it then sends no
    signal and changes nothing. *)
Theorem stop_unknown_instance (kill : Z → kill_result) (instance_id : Z)
    (c : controller) :
  ((stop_instance kill instance_id c).1.1 = StopNotFound ↔
   instance_id ∉ inst_id <$> instances c) ∧
  match (stop_instance kill instance_id c).1.1 with
  | StopNotFound =>
      (stop_instance kill instance_id c).1.2 = [] ∧
      (stop_instance kill instance_id c).2 = c
  | _ => True
  end.
Proof.
  unfold stop_instance.
  destruct (find _ _) as [i|] eqn:Hfind.
  - apply find_some in Hfind as [Hin Hid]. apply bool_decide_eq_true in Hid.
    assert (Hmem : instance_id ∈ inst_id <$> instances c).
    { apply list_elem_of_fmap. exists i. by rewrite list_elem_of_In. }
    destruct (kill (pid i)); simpl; (split; [split; [done|tauto]|done]).
  - simpl. split; [|done]. split; [|done]. intros _ Hmem.
    apply find_id_some in Hmem as [i Hi]. congruence.
Qed.

(** X6.  A successful stop sends one [SIGTERM], to the process of the
    stopped instance, frees exactly one slot, and leaves the queue, the
    id counter and the records of all other instances as they were. *)
Theorem stop_frees_one_slot (s : settings) (d : store) (urls : list string)
    (probe : Z → kill_result) (ops : list op) (kill : Z → kill_result)
    (instance_id : Z) :
  store_ok d →
  let c := run (init s d urls probe) ops in
  (stop_instance kill instance_id c).1.1 = Stopped →
  let c' := (stop_instance kill instance_id c).2 in
  live_count c' = live_count c - 1 ∧
  (∃ i, i ∈ instances c ∧ inst_id i = instance_id ∧
        (stop_instance kill instance_id c).1.2 = [Kill (pid i) SIGTERM]) ∧
  (∀ i, inst_id i ≠ instance_id → i ∈ instances c' ↔ i ∈ instances c) ∧
  queue c' = queue c ∧
  next_instance_id c' = next_instance_id c.
Proof.
  intros Hd c.
  assert (Hc : consistent c) by by apply run_consistent, init_consistent.
  pose proof (sorted_keys_NoDup inst_id _ (instances_sorted c Hc)) as Hnd.
  unfold stop_instance.
  destruct (find _ _) as [i|] eqn:Hfind; [|done].
  apply find_some in Hfind as [Hin Hid]. apply bool_decide_eq_true in Hid.
  apply list_elem_of_In in Hin.
  assert (Hmem : instance_id ∈ inst_id <$> instances c).
  { apply list_elem_of_fmap. by exists i. }
  assert (Hlen : live_count (forget_instance instance_id c)
                 = live_count c - 1).
  { unfold live_count. simpl.
    pose proof (filter_key_length inst_id instance_id _ Hnd Hmem). lia. }
  assert (Hothers : ∀ x, inst_id x ≠ instance_id →
            x ∈ instances (forget_instance instance_id c) ↔ x ∈ instances c).
  { intros x Hx. simpl. rewrite list_elem_of_filter. tauto. }
  destruct (kill (pid i)); simpl; intros Hst; try done;
    (split; [done|]; split; [by exists i|done]).
Qed.

Lemma stop_frees_one_slot_witness :
  let c := run (init default_settings empty_store three_urls all_alive)
             [StartNext (quiet_world 4001); StartNext (quiet_world 4002)] in
  let c' := (stop_instance all_alive 2 c).2 in
  live_count c' = live_count c - 1 ∧
  (∃ i, i ∈ instances c ∧ inst_id i = 2 ∧
        (stop_instance all_alive 2 c).1.2 = [Kill (pid i) SIGTERM]) ∧
  (∀ i, inst_id i ≠ 2 → i ∈ instances c' ↔ i ∈ instances c) ∧
  queue c' = queue c ∧
  next_instance_id c' = next_instance_id c.
Proof.
  apply (stop_frees_one_slot default_settings empty_store three_urls
           all_alive
           [StartNext (quiet_world 4001); StartNext (quiet_world 4002)]
           all_alive 2).
  - constructor; simpl; constructor.
  - reflexivity.
Defined.

(** X7.  When [os.kill] raises anything but [ProcessLookupError],
    [stop_instance] returns [False] after the one signal it tried to
    send, and the instance stays, in memory and in the store. *)
Theorem stop_error_keeps_record (s : settings) (d : store)
    (urls : list string) (probe : Z → kill_result) (ops : list op)
    (kill : Z → kill_result) (i : instance) :
  store_ok d →
  let c := run (init s d urls probe) ops in
  i ∈ instances c →
  kill (pid i) = KillFailed →
  stop_instance kill (inst_id i) c = (StopError, [Kill (pid i) SIGTERM], c).
Proof.
  intros Hd c Hi Hkill.
  assert (Hc : consistent c) by by apply run_consistent, init_consistent.
  pose proof (sorted_keys_NoDup inst_id _ (instances_sorted c Hc)) as Hnd.
  unfold stop_instance. rewrite (find_unique i) by done. by rewrite Hkill.
Qed.

Lemma stop_error_keeps_record_witness :
  let c := run (init default_settings empty_store three_urls all_alive)
             [StartNext (quiet_world 4001)] in
  let i := new_instance default_settings "http://a.example/1" 1 4001 in
  stop_instance never_delivered (inst_id i) c
    = (StopError, [Kill (pid i) SIGTERM], c).
Proof.
  apply (stop_error_keeps_record default_settings empty_store three_urls
           all_alive [StartNext (quiet_world 4001)] never_delivered
           (new_instance default_settings "http://a.example/1" 1 4001)).
  - constructor; simpl; constructor.
  - vm_compute. apply list_elem_of_singleton. reflexivity.
  - reflexivity.
Defined.

Section KeySets.
Context {A : Type} (key : A → Z).

Lemma NoDup_keys_filter (P : A → Prop) `{!∀ x, Decision (P x)} (l : list A) :
  NoDup (key <$> l) → NoDup (key <$> filter P l).
Proof.
  intros Hnd. eapply sublist_NoDup; [exact Hnd|].
  apply fmap_sublist, sublist_filter.
Qed.

(** Dropping the elements that carry the key of an element satisfying
    [Q] drops the elements that satisfy [Q], when keys are unique. *)
Lemma filter_not_in_keys (Q : A → Prop) `{!∀ x, Decision (Q x)} (l : list A) :
  NoDup (key <$> l) →
  filter (λ i, key i ∉ key <$> filter Q l) l = filter (λ i, ¬ Q i) l.
Proof.
  intros Hnd. apply filter_ext_elem. intros i Hi. split.
  - intros Hnot HQ. apply Hnot. apply list_elem_of_fmap.
    exists i. split; [done|]. by apply list_elem_of_filter.
  - intros HnQ [j [Hid [HQ Hj]%list_elem_of_filter]]%list_elem_of_fmap.
    assert (i = j) as ->; [|done].
    apply list_elem_of_lookup in Hi as [n Hn].
    apply list_elem_of_lookup in Hj as [m Hm].
    assert (n = m) as ->; [|congruence].
    eapply NoDup_lookup; [exact Hnd| |];
      rewrite list_lookup_fmap; [by rewrite Hn|by rewrite Hm, Hid].
Qed.
End KeySets.

Lemma stop_all_one_step (kill : Z → kill_result) (effs : list effect)
    (c : controller) (x : instance) :
  NoDup (inst_id <$> instances c) → x ∈ instances c →
  stop_all_one kill (effs, c) x =
    (effs ++ [Kill (pid x) SIGTERM],
     match kill (pid x) with
     | KillFailed => c
     | KillOk | KillNoProcess => forget_instance (inst_id x) c
     end).
Proof.
  intros Hnd Hx. unfold stop_all_one, stop_instance.
  rewrite (find_unique x) by done. by destruct (kill (pid x)).
Qed.

Lemma stop_all_loop (kill : Z → kill_result) (l : list instance)
    (effs : list effect) (c : controller) :
  NoDup (inst_id <$> instances c) →
  NoDup (inst_id <$> l) →
  (∀ x, x ∈ l → x ∈ instances c) →
  (foldl (stop_all_one kill) (effs, c) l).1
    = effs ++ ((λ i, Kill (pid i) SIGTERM) <$> l) ∧
  instances (foldl (stop_all_one kill) (effs, c) l).2 =
    filter (λ i, inst_id i ∉ stopped_ids kill l) (instances c) ∧
  instances_table (db (foldl (stop_all_one kill) (effs, c) l).2) =
    filter (λ i, inst_id i ∉ stopped_ids kill l) (instances_table (db c)).
Proof.
  revert c effs. induction l as [|x l IH]; intros c effs Hnd Hl Hin.
  - simpl. rewrite app_nil_r. unfold stopped_ids. simpl.
    repeat split; try done; symmetry; apply filter_all;
      intros i _; apply not_elem_of_nil.
  - rewrite fmap_cons in Hl. apply list.NoDup_cons in Hl as [Hx Hl].
    assert (Hxin : x ∈ instances c) by (apply Hin; by left).
    assert (Hmerge : ∀ t : list instance,
      filter (λ i, inst_id i ∉ stopped_ids kill l)
        (filter (λ i, inst_id i ≠ inst_id x) t) =
      filter (λ i, inst_id i ∉ inst_id x :: stopped_ids kill l) t).
    { intros t. rewrite list_filter_filter. apply filter_ext_elem.
      intros i _. rewrite not_elem_of_cons. tauto. }
    assert (Hrest : ∀ y, y ∈ l →
              y ∈ instances (forget_instance (inst_id x) c)).
    { intros y Hy. simpl. apply list_elem_of_filter. split.
      - intros Heq. apply Hx. rewrite <- Heq.
        apply list_elem_of_fmap. by exists y.
      - apply Hin. by right. }
    assert (Hs : stopped_ids kill (x :: l) =
              match kill (pid x) with
              | KillFailed => stopped_ids kill l
              | KillOk | KillNoProcess => inst_id x :: stopped_ids kill l
              end).
    { unfold stopped_ids. rewrite filter_cons.
      destruct (kill (pid x)); case_decide; done. }
    cbn [foldl]. rewrite stop_all_one_step by done.
    rewrite fmap_cons, Hs.
    destruct (kill (pid x)) eqn:Hk; cbv iota.
    + destruct (IH (forget_instance (inst_id x) c)
                  (effs ++ [Kill (pid x) SIGTERM])) as (-> & -> & ->);
        [by apply NoDup_keys_filter|done|done|].
      rewrite <- app_assoc. simpl. unfold delete_row. by rewrite !Hmerge.
    + destruct (IH (forget_instance (inst_id x) c)
                  (effs ++ [Kill (pid x) SIGTERM])) as (-> & -> & ->);
        [by apply NoDup_keys_filter|done|done|].
      rewrite <- app_assoc. simpl. unfold delete_row. by rewrite !Hmerge.
    + destruct (IH c (effs ++ [Kill (pid x) SIGTERM])) as (-> & -> & ->);
        try done.
      * intros y Hy. apply Hin. by right.
      * by rewrite <- app_assoc.
Qed.

Lemma filter_none {A : Type} (P : A → Prop) `{!∀ x, Decision (P x)}
    (l : list A) :
  (∀ x, x ∈ l → ¬ P x) → filter P l = [].
Proof.
  induction l as [|x l IH]; intros Hnone; [done|].
  rewrite filter_cons_False by (apply Hnone; by left).
  apply IH. intros y Hy. apply Hnone. by right.
Qed.

(** X8.  [stop-all] sends one [SIGTERM] to the process of every
    instance, in the order of the list, and leaves in [self.instances]
    and in the table exactly the instances whose signal could not be
    sent (where [os.kill] raised something other than
    [ProcessLookupError]); when none fails nothing is left. *)
Theorem stop_all_leaves_failures (s : settings) (d : store)
    (urls : list string) (probe : Z → kill_result) (ops : list op)
    (kill : Z → kill_result) :
  store_ok d →
  let c := run (init s d urls probe) ops in
  (stop_all kill c).1 = (λ i, Kill (pid i) SIGTERM) <$> instances c ∧
  instances (stop_all kill c).2 =
    filter (λ i, kill (pid i) = KillFailed) (instances c) ∧
  instances_table (db (stop_all kill c).2) =
    filter (λ i, kill (pid i) = KillFailed) (instances_table (db c)) ∧
  ((∀ i, i ∈ instances c → kill (pid i) ≠ KillFailed) →
   instances (stop_all kill c).2 = []).
Proof.
  intros Hd c.
  assert (Hc : consistent c) by by apply run_consistent, init_consistent.
  pose proof (sorted_keys_NoDup inst_id _ (instances_sorted c Hc)) as Hnd.
  destruct (stop_all_loop kill (instances c) [] c Hnd Hnd) as (He & Hi & Ht);
    [done|].
  assert (Hf : filter (λ i, inst_id i ∉ stopped_ids kill (instances c))
                 (instances c)
               = filter (λ i, kill (pid i) = KillFailed) (instances c)).
  { unfold stopped_ids. rewrite (filter_not_in_keys inst_id) by done.
    apply filter_ext_elem. intros i _. split; [apply dec_stable|].
    intros Heq Hne. by apply Hne. }
  unfold stop_all. rewrite He, Hi, Ht, <- (instances_mirrored c Hc), Hf.
  repeat split; try done.
  intros Hall. apply filter_none. intros i Hin Hfail. by apply (Hall i).
Qed.

Lemma stop_all_leaves_failures_witness :
  let c := run (init default_settings empty_store three_urls all_alive)
             [StartNext (quiet_world 4001); StartNext (quiet_world 4002)] in
  (stop_all all_alive c).1 = (λ i, Kill (pid i) SIGTERM) <$> instances c ∧
  instances (stop_all all_alive c).2 =
    filter (λ i, all_alive (pid i) = KillFailed) (instances c) ∧
  instances_table (db (stop_all all_alive c).2) =
    filter (λ i, all_alive (pid i) = KillFailed) (instances_table (db c)) ∧
  ((∀ i, i ∈ instances c → all_alive (pid i) ≠ KillFailed) →
   instances (stop_all all_alive c).2 = []).
Proof.
  apply (stop_all_leaves_failures default_settings empty_store three_urls
           all_alive
           [StartNext (quiet_world 4001); StartNext (quiet_world 4002)]
           all_alive).
  constructor; simpl; constructor.
Defined.

(** * More on reclaiming *)

Lemma controller_ext (c1 c2 : controller) :
  ctl_settings c1 = ctl_settings c2 →
  queue c1 = queue c2 →
  instances c1 = instances c2 →
  next_instance_id c1 = next_instance_id c2 →
  queue_table (db c1) = queue_table (db c2) →
  instances_table (db c1) = instances_table (db c2) →
  c1 = c2.
Proof.
  destruct c1 as [? ? ? ? []], c2 as [? ? ? ? []]. simpl.
  by intros -> -> -> -> -> ->.
Qed.

(** X9.  A second pass of [clean_instances] that gets the same answers
    from [os.kill] changes nothing: the controller after two passes is
    the controller after one. *)
Theorem clean_twice (s : settings) (d : store) (urls : list string)
    (probe0 probe : Z → kill_result) (ops : list op) :
  store_ok d →
  let c := run (init s d urls probe0) ops in
  (clean_instances probe (clean_instances probe c).2).2
    = (clean_instances probe c).2.
Proof.
  intros Hd c.
  assert (Hc : consistent c) by by apply run_consistent, init_consistent.
  pose proof (clean_instances_consistent probe c Hc) as Hc1.
  destruct (clean_instances_removes_dead probe c Hc) as [Hi Ht].
  destruct (clean_instances_removes_dead probe _ Hc1) as [Hi1 Ht1].
  destruct (clean_instances_frame probe (clean_instances probe c).2)
    as (Hs & Hn & Hq & Hqt & _).
  apply controller_ext; try done.
  - rewrite Hi1, Hi. by apply list_filter_filter_l.
  - rewrite Ht1, Ht. by apply list_filter_filter_l.
Qed.

Lemma clean_twice_witness :
  let c := run (init default_settings empty_store three_urls all_alive)
             [StartNext (quiet_world 4001); StartNext (quiet_world 4002)] in
  (clean_instances first_died (clean_instances first_died c).2).2
    = (clean_instances first_died c).2.
Proof.
  apply (clean_twice default_settings empty_store three_urls all_alive
           first_died
           [StartNext (quiet_world 4001); StartNext (quiet_world 4002)]).
  constructor; simpl; constructor.
Defined.

Lemma clean_loop_effects_list (probe : Z → kill_result) (l : list instance)
    (effs : list effect) (c : controller) :
  (foldl (clean_one probe) (effs, c) l).1
    = effs ++ ((λ i, Kill (pid i) SIG0) <$> l).
Proof.
  revert c effs. induction l as [|x l IH]; intros c effs; simpl.
  - by rewrite app_nil_r.
  - destruct (probe (pid x)); rewrite IH, <- app_assoc; done.
Qed.

(** X10.  One pass of [clean_instances] probes the process of every
    entry of [self.instances] as it was when the pass began, once each
    and in the order of the list, with signal 0; it sends no other
    signal and makes no other call to the outside world. *)
Theorem clean_probes_each_once (probe : Z → kill_result) (c : controller) :
  (clean_instances probe c).1 = (λ i, Kill (pid i) SIG0) <$> instances c.
Proof. unfold clean_instances. by rewrite clean_loop_effects_list. Qed.

(** * More on starting *)

(** What a start that succeeded has met. *)
Lemma start_taby_started (w : spawn_world) (url : string) (instance_id : Z)
    (c : controller) :
  (start_taby w url instance_id c).1.1 = TabyStarted →
  ports_in_range (ctl_settings c) instance_id ∧
  connect_ex w (port_of (rtsp_base_port (ctl_settings c)) instance_id
                  (port_increment (ctl_settings c))) ≠ 0 ∧
  connect_ex w (port_of (http_base_port (ctl_settings c)) instance_id
                  (port_increment (ctl_settings c))) ≠ 0 ∧
  popen w ≠ None ∧
  (instance_id ∉ inst_id <$> instances_table (db c)) ∧
  db_writable w = true.
Proof.
  unfold start_taby, check_port_availability, ports_in_range.
  destruct (decide (0 ≤ port_of (rtsp_base_port _) _ _ ≤ 65535)); [|done].
  destruct (connect_ex w (port_of (rtsp_base_port _) _ _) =? 0) eqn:H1;
    [done|]. simpl.
  destruct (decide (0 ≤ port_of (http_base_port _) _ _ ≤ 65535)); [|done].
  destruct (connect_ex w (port_of (http_base_port _) _ _) =? 0) eqn:H2;
    [done|]. simpl.
  destruct (popen w) as [p|]; [|done].
  unfold insert_instance, has_key. simpl.
  destruct (db_writable w); [|done].
  case_bool_decide as Hk; [done|]. intros _.
  apply Z.eqb_neq in H1, H2. done.
Qed.

(** X11.  [start_taby] reports success only when both ports of the
    instance are in 0..65535, a connection to each was refused, [Popen]
    returned, no row of the table carries the id and the database could
    be written; otherwise it returns [False]. *)
Theorem started_only_on_free_ports (w : spawn_world) (url : string)
    (instance_id : Z) (c : controller) :
  start_ok (start_taby w url instance_id c).1.1 = true →
  let s := ctl_settings c in
  0 ≤ rtsp_base_port s + instance_id * port_increment s ≤ 65535 ∧
  0 ≤ http_base_port s + instance_id * port_increment s ≤ 65535 ∧
  connect_ex w (rtsp_base_port s + instance_id * port_increment s) ≠ 0 ∧
  connect_ex w (http_base_port s + instance_id * port_increment s) ≠ 0 ∧
  popen w ≠ None ∧
  (instance_id ∉ inst_id <$> instances_table (db c)) ∧
  db_writable w = true.
Proof.
  intros Hok s.
  destruct (start_taby_started w url instance_id c)
    as ([Hr Hh] & H1 & H2 & Hp & Hk & Hw).
  - by destruct (start_taby w url instance_id c).1.1.
  - done.
Qed.

Lemma started_only_on_free_ports_witness :
  let c := init default_settings empty_store three_urls all_alive in
  let w := quiet_world 4001 in
  let s := ctl_settings c in
  0 ≤ rtsp_base_port s + 1 * port_increment s ≤ 65535 ∧
  0 ≤ http_base_port s + 1 * port_increment s ≤ 65535 ∧
  connect_ex w (rtsp_base_port s + 1 * port_increment s) ≠ 0 ∧
  connect_ex w (http_base_port s + 1 * port_increment s) ≠ 0 ∧
  popen w ≠ None ∧
  (1 ∉ inst_id <$> instances_table (db c)) ∧
  db_writable w = true.
Proof.
  apply (started_only_on_free_ports (quiet_world 4001) "http://a.example/1" 1
           (init default_settings empty_store three_urls all_alive)).
  reflexivity.
Defined.

Lemma not_launched_nil : ¬ launched [].
Proof. by intros [argv ?%elem_of_nil]. Qed.

(** The effects of [start_taby] hold a launch only when [Popen] was
    reached and returned; the start is then reported as failed only when
    the INSERT raised. *)
Lemma start_taby_launched (w : spawn_world) (url : string) (instance_id : Z)
    (c : controller) :
  launched (start_taby w url instance_id c).1.2 →
  start_ok (start_taby w url instance_id c).1.1 = true ∨
  instance_id ∈ inst_id <$> instances_table (db c) ∨
  db_writable w = false.
Proof.
  unfold start_taby.
  assert (Hno : ∀ l, Forall (λ e, ∀ argv, e ≠ Launch argv) l → ¬ launched l).
  { intros l Hl [argv Hin]. rewrite list.Forall_forall in Hl.
    by apply (Hl _ Hin argv). }
  destruct (check_port_availability w _) as [[]|]; simpl;
    try (intros HL; exfalso; revert HL; apply Hno; by repeat constructor).
  destruct (check_port_availability w _) as [[]|]; simpl;
    try (intros HL; exfalso; revert HL; apply Hno; by repeat constructor).
  destruct (popen w) as [p|]; simpl;
    try (intros HL; exfalso; revert HL; apply Hno; by repeat constructor).
  unfold insert_instance, has_key. simpl.
  destruct (db_writable w); [|intros _; by right; right].
  case_bool_decide as Hk; simpl; intros _; [right; by left|by left].
Qed.

Lemma start_taby_ok_launched (w : spawn_world) (url : string)
    (instance_id : Z) (c : controller) :
  start_ok (start_taby w url instance_id c).1.1 = true →
  launched (start_taby w url instance_id c).1.2.
Proof.
  unfold start_taby.
  destruct (check_port_availability w _) as [[]|]; [|done..].
  destruct (check_port_availability w _) as [[]|]; [|done..].
  destruct (popen w) as [p|]; [|done].
  destruct (insert_instance _ _ _); [|done]. simpl. intros _.
  eexists. rewrite !elem_of_cons. right. right. right. by left.
Qed.

(** With ports that are free and a script that starts, [start_taby]
    gets as far as running the script, whatever the database does
    afterwards. *)
Lemma start_taby_reaches_popen (w : spawn_world) (url : string)
    (instance_id : Z) (c : controller) :
  ports_in_range (ctl_settings c) instance_id →
  (∀ port, connect_ex w port ≠ 0) →
  popen w ≠ None →
  launched (start_taby w url instance_id c).1.2.
Proof.
  intros [Hr Hh] Hfree Hp.
  unfold start_taby, check_port_availability.
  rewrite !decide_True by done.
  pose proof (Hfree (port_of (rtsp_base_port (ctl_settings c)) instance_id
                       (port_increment (ctl_settings c)))) as H1.
  pose proof (Hfree (port_of (http_base_port (ctl_settings c)) instance_id
                       (port_increment (ctl_settings c)))) as H2.
  apply Z.eqb_neq in H1, H2. rewrite H1, H2. simpl.
  destruct (popen w) as [p|]; [|done].
  destruct (insert_instance _ _ _); simpl;
    eexists; rewrite !elem_of_cons; right; right; right; by left.
Qed.

(** X12.  In every state the controller reaches from a database file,
    [start_next] returns [True] only after it has run the script.  When
    it has run the script and returns [False], the INSERT of the instance
    raised because the database could not be written, and the controller
    is left as it was: the URL is still queued, the id is not used, and
    nothing records the process that was started.  That happens whenever
    there is room, a queued item, free ports in 0..65535, a script that
    starts and a database that cannot be written. *)
Theorem start_next_launches (s : settings) (d : store) (urls : list string)
    (probe : Z → kill_result) (ops : list op) (w : spawn_world) :
  store_ok d →
  let c := run (init s d urls probe) ops in
  (next_ok (start_next w c).1.1 = true → launched (start_next w c).1.2) ∧
  (launched (start_next w c).1.2 → next_ok (start_next w c).1.1 = false →
   db_writable w = false ∧ (start_next w c).2 = c) ∧
  (can_fill c → ports_in_range (ctl_settings c) (next_instance_id c) →
   (∀ port, connect_ex w port ≠ 0) → popen w ≠ None →
   db_writable w = false →
   launched (start_next w c).1.2 ∧ next_ok (start_next w c).1.1 = false).
Proof.
  intros Hd c.
  assert (Hc : consistent c) by by apply run_consistent, init_consistent.
  assert (Hfresh : next_instance_id c ∉ inst_id <$> instances_table (db c)).
  { rewrite <- (instances_mirrored c Hc).
    intros [i [Heq Hi]]%list_elem_of_fmap.
    pose proof (ids_below_next c Hc) as Hn. rewrite list.Forall_forall in Hn.
    specialize (Hn i Hi). lia. }
  unfold start_next, can_fill. destruct (queue c) as [|item rest].
  { simpl. split_and!; [done|by intros ?%not_launched_nil|by intros [_ ?]]. }
  destruct (decide _) as [Hfull|Hroom].
  { simpl. split_and!; [done|by intros ?%not_launched_nil|intros [? _]; lia]. }
  pose proof (start_taby_launched w (q_url item) (next_instance_id c) c) as H1.
  pose proof (start_taby_ok_launched w (q_url item) (next_instance_id c) c)
    as H2.
  pose proof (start_taby_failure w (q_url item) (next_instance_id c) c) as H3.
  pose proof (start_taby_reaches_popen w (q_url item) (next_instance_id c) c)
    as H4.
  pose proof (start_taby_started w (q_url item) (next_instance_id c) c) as H5.
  destruct (start_taby w (q_url item) (next_instance_id c) c)
    as [[r effs] c']; simpl in *.
  destruct (start_ok r) eqn:Hr; simpl; split_and!.
  - intros _. by apply H2.
  - done.
  - intros _ Hports Hfree Hp Hw. destruct r; try done.
    destruct H5 as (_ & _ & _ & _ & _ & Hw'); [done|congruence].
  - done.
  - intros HL _. destruct (H1 HL) as [?|[?|?]]; try done.
    split; [done|]. by rewrite H3.
  - intros _ Hports Hfree Hp Hw. split; [by apply H4|done].
Qed.

Lemma start_next_launches_witness :
  let c := run (init default_settings empty_store three_urls all_alive)
             [StartNext (quiet_world 4001)] in
  let w := locked_store 4002 in
  (next_ok (start_next w c).1.1 = true → launched (start_next w c).1.2) ∧
  (launched (start_next w c).1.2 → next_ok (start_next w c).1.1 = false →
   db_writable w = false ∧ (start_next w c).2 = c) ∧
  (can_fill c → ports_in_range (ctl_settings c) (next_instance_id c) →
   (∀ port, connect_ex w port ≠ 0) → popen w ≠ None →
   db_writable w = false →
   launched (start_next w c).1.2 ∧ next_ok (start_next w c).1.1 = false).
Proof.
  apply (start_next_launches default_settings empty_store three_urls
           all_alive [StartNext (quiet_world 4001)] (locked_store 4002)).
  constructor; simpl; constructor.
Defined.

(** The process that no record names: with two URLs still queued and the
    database locked, the script is run for the first of them and the
    start is then reported as failed. *)
Example orphan_process :
  let c := run (init default_settings empty_store three_urls all_alive)
             [StartNext (quiet_world 4001)] in
  (start_next (locked_store 4002) c).1.1 = NotStarted StartError ∧
  (start_next (locked_store 4002) c).2 = c ∧
  Exists (λ e, ∃ argv, e = Launch argv) (start_next (locked_store 4002) c).1.2.
Proof.
  vm_compute. repeat split.
  do 3 apply Exists_cons_tl. apply Exists_cons_hd. by eexists.
Qed.

(** The same happens outside a database file, with a row of the table
    that memory does not know: the INSERT finds the id taken. *)
Example unknown_row_blocks_start :
  let c := {| ctl_settings := default_settings;
              queue := [QueueItem 1 "http://a.example/1"];
              instances := [];
              next_instance_id := 1;
              db := {| queue_table := [QueueItem 1 "http://a.example/1"];
                       instances_table :=
                         [new_instance default_settings "http://x.example/0"
                            1 3999] |} |} in
  (start_next (quiet_world 4001) c).1.1 = NotStarted StartError ∧
  (start_next (quiet_world 4001) c).2 = c ∧
  Exists (λ e, ∃ argv, e = Launch argv) (start_next (quiet_world 4001) c).1.2.
Proof.
  vm_compute. repeat split.
  do 3 apply Exists_cons_tl. apply Exists_cons_hd. by eexists.
Qed.

(** X13.  Once the port of the next id falls outside 0..65535 no
    command starts anything any more: whatever the commands and the
    world, no id is handed out, the id counter stays, and the instances
    are among those already running. *)
Theorem ports_exhausted (c : controller) (ops : list op) :
  ¬ ports_in_range (ctl_settings c) (next_instance_id c) →
  assigned_ids c ops = [] ∧
  next_instance_id (run c ops) = next_instance_id c ∧
  instances (run c ops) `sublist_of` instances c.
Proof.
  revert c. induction ops as [|o ops IH]; intros c Hout; simpl; [done|].
  assert (Hstep : assigned c o = [] ∧
                  next_instance_id (step c o) = next_instance_id c ∧
                  instances (step c o) `sublist_of` instances c).
  { destruct o as [u|q|w|i kill|probe]; simpl.
    - by destruct (add_to_queue_frame u c) as (-> & _ & -> & _).
    - done.
    - pose proof (not_started_same w c) as Hno. unfold start_next in *.
      destruct (queue c) as [|item rest]; [done|].
      destruct (decide _) as [Hfull|Hroom]; [done|].
      pose proof (start_taby_started w (q_url item) (next_instance_id c) c)
        as Hyes.
      destruct (start_taby w (q_url item) (next_instance_id c) c)
        as [[r effs] c']; simpl in *.
      destruct r; simpl in *; try (rewrite Hno by done; done).
      by destruct Hyes as [? _].
    - destruct (stop_instance_frame kill i c) as (_ & -> & _ & Hs). done.
    - destruct (clean_instances_frame probe c) as (_ & -> & _ & _ & Hs). done. }
  destruct Hstep as (-> & Hn & Hsub).
  destruct (IH (step c o)) as (-> & -> & Hsub').
  - by rewrite step_settings, Hn.
  - repeat split; try done. by etrans.
Qed.

(** With the default base ports and increment, id 5699 is the first
    without a port. *)
Lemma ports_exhausted_witness :
  let c := {| ctl_settings := default_settings;
              queue := [QueueItem 1 "http://a.example/1"];
              instances := [];
              next_instance_id := 5699;
              db := {| queue_table := [QueueItem 1 "http://a.example/1"];
                       instances_table := [] |} |} in
  let ops := [StartNext (quiet_world 4001); Enqueue "http://b.example/2";
              StartNext (quiet_world 4002)] in
  assigned_ids c ops = [] ∧
  next_instance_id (run c ops) = next_instance_id c ∧
  instances (run c ops) `sublist_of` instances c.
Proof.
  apply (ports_exhausted
    {| ctl_settings := default_settings;
       queue := [QueueItem 1 "http://a.example/1"];
       instances := [];
       next_instance_id := 5699;
       db := {| queue_table := [QueueItem 1 "http://a.example/1"];
                instances_table := [] |} |}).
  unfold ports_in_range, port_of. simpl. lia.
Defined.

(** * The title *)

Lemma length_append (a b : string) :
  String.length (a +:+ b) = (String.length a + String.length b)%nat.
Proof.
  induction a as [|x a IH]; [done|].
  change (String x a +:+ b) with (String x (a +:+ b)). simpl. by rewrite IH.
Qed.

Lemma length_substring_0 (m : nat) (t : string) :
  (m ≤ String.length t)%nat → String.length (substring 0 m t) = m.
Proof.
  revert t. induction m as [|m IH]; intros t Hm.
  - by destruct t.
  - destruct t as [|x t]; simpl in *; [lia|]. rewrite IH; [done|lia].
Qed.

Lemma prefix_substring_0 (m : nat) (t : string) :
  String.prefix (substring 0 m t) t = true.
Proof.
  revert t. induction m as [|m IH]; intros t.
  - by destruct t.
  - destruct t as [|x t]; simpl; [done|].
    destruct (Ascii.ascii_dec x x); [apply IH|done].
Qed.

(** X14.  When the title lookup succeeds, the title put on the audio
    devices is the title itself if it has at most 30 characters, and
    otherwise its first 27 characters followed by three dots; it never
    has more than 30 characters. *)
Theorem title_fits (w : spawn_world) (instance_id : Z) (t : string) :
  get_title w = Some t →
  (String.length (display_title w instance_id) ≤ 30)%nat ∧
  if decide (String.length t ≤ 30)%nat
  then display_title w instance_id = t
  else ∃ head, display_title w instance_id = (head +:+ "...")%string ∧
               String.length head = 27%nat ∧
               String.prefix head t = true.
Proof.
  intros Ht. unfold display_title. rewrite Ht.
  destruct (decide (30 < String.length t)%nat) as [Hlong|Hshort].
  - rewrite decide_False by lia. split.
    + rewrite length_append, length_substring_0 by lia. simpl. lia.
    + exists (substring 0 27 t). split; [done|].
      split; [apply length_substring_0; lia|apply prefix_substring_0].
  - rewrite decide_True by lia. split; [lia|done].
Qed.

Lemma title_fits_witness :
  let w := {| connect_ex := λ _, 111;
              get_title := Some "A title that is longer than thirty characters";
              popen := Some 4001; exit_status := None;
              db_writable := true |} in
  let t := "A title that is longer than thirty characters"%string in
  (String.length (display_title w 1) ≤ 30)%nat ∧
  if decide (String.length t ≤ 30)%nat
  then display_title w 1 = t
  else ∃ head, display_title w 1 = (head +:+ "...")%string ∧
               String.length head = 27%nat ∧
               String.prefix head t = true.
Proof.
  apply (title_fits
    {| connect_ex := λ _, 111;
       get_title := Some "A title that is longer than thirty characters";
       popen := Some 4001; exit_status := None; db_writable := true |} 1
    "A title that is longer than thirty characters").
  reflexivity.
Defined.

(** * Starting again from the store *)

Lemma init_no_urls (s : settings) (d : store) (probe : Z → kill_result) :
  store_ok d →
  let c := init s d [] probe in
  ctl_settings c = s ∧
  queue c = queue_table d ∧
  instances c = filter (alive probe) (instances_table d) ∧
  queue_table (db c) = queue_table d ∧
  instances_table (db c) = filter (alive probe) (instances_table d) ∧
  next_instance_id c = py_max (inst_id <$> instances_table d) 0 + 1.
Proof.
  intros Hd c. subst c. unfold init.
  pose proof (init_loaded_consistent s d [] Hd) as Hc.
  destruct (clean_instances_removes_dead probe _ Hc) as [Hi Ht].
  destruct (clean_instances_frame probe (init_loaded s d []))
    as (Hs & Hn & Hq & Hqt & _).
  rewrite Hs, Hn, Hq, Hqt, Hi, Ht. done.
Qed.

(** X15.  A controller started on a database file, with no URL on the
    command line, has the pending items of the table [queue] in the order
    of their ids, and of the table [instances] the rows whose process is
    not gone; the other rows are deleted from the table.  The id counter
    starts one above the largest id of the table, rows of dead processes
    included. *)
Theorem restart_reloads (s : settings) (d : store)
    (probe : Z → kill_result) :
  store_ok d →
  let c := init s d [] probe in
  ctl_settings c = s ∧
  queue c = queue_table d ∧
  StronglySorted Z.lt (q_id <$> queue c) ∧
  instances c = filter (alive probe) (instances_table d) ∧
  queue_table (db c) = queue_table d ∧
  instances_table (db c) = filter (alive probe) (instances_table d) ∧
  next_instance_id c = py_max (inst_id <$> instances_table d) 0 + 1.
Proof.
  intros Hd c.
  destruct (init_no_urls s d probe Hd) as (Hs & Hq & Hi & Hqt & Hit & Hn).
  fold c in Hs, Hq, Hi, Hqt, Hit, Hn.
  repeat split; try done. rewrite Hq. apply Hd.
Qed.

Lemma restart_reloads_witness :
  let d := db (run (init default_settings empty_store three_urls all_alive)
                 [StartNext (quiet_world 4001); StartNext (quiet_world 4002)]) in
  let c := init default_settings d [] first_died in
  ctl_settings c = default_settings ∧
  queue c = queue_table d ∧
  StronglySorted Z.lt (q_id <$> queue c) ∧
  instances c = filter (alive first_died) (instances_table d) ∧
  queue_table (db c) = queue_table d ∧
  instances_table (db c) = filter (alive first_died) (instances_table d) ∧
  next_instance_id c = py_max (inst_id <$> instances_table d) 0 + 1.
Proof.
  apply (restart_reloads default_settings
    (db (run (init default_settings empty_store three_urls all_alive)
           [StartNext (quiet_world 4001); StartNext (quiet_world 4002)]))
    first_died).
  constructor; vm_compute; repeat constructor.
Defined.

(** X16.  Stopping the controller and starting it again on the store it
    left, while every recorded process still runs, gives the same queue,
    the same instances and the same store; only the id counter is taken
    anew, one above the largest id still recorded. *)
Theorem restart_keeps_state (s : settings) (d : store) (urls : list string)
    (probe probe' : Z → kill_result) (ops : list op) :
  store_ok d →
  let c := run (init s d urls probe) ops in
  Forall (alive probe') (instances c) →
  let c' := init (ctl_settings c) (db c) [] probe' in
  queue c' = queue c ∧
  instances c' = instances c ∧
  db c' = db c ∧
  ctl_settings c' = ctl_settings c ∧
  next_instance_id c' = py_max (inst_id <$> instances c) 0 + 1.
Proof.
  intros Hd c Halive c'.
  assert (Hc : consistent c) by by apply run_consistent, init_consistent.
  destruct Hc as [Hq Hi Hqs His Hn].
  assert (Hdb : store_ok (db c)).
  { constructor; [by rewrite <- Hq|by rewrite <- Hi]. }
  destruct (init_no_urls (ctl_settings c) (db c) probe' Hdb)
    as (Hs' & Hq' & Hi' & Hqt' & Hit' & Hn').
  fold c' in Hs', Hq', Hi', Hqt', Hit', Hn'.
  assert (Hall : filter (alive probe') (instances_table (db c))
                 = instances_table (db c)).
  { apply filter_all. rewrite <- Hi. by apply list.Forall_forall. }
  rewrite Hall in Hi', Hit'.
  repeat split; try congruence.
  destruct (db c') as [qt it], (db c) as [qt0 it0]. simpl in *. congruence.
Qed.

Lemma restart_keeps_state_witness :
  let c := run (init default_settings empty_store three_urls all_alive)
             [StartNext (quiet_world 4001); StartNext (quiet_world 4002);
              Stop 2 all_alive] in
  let c' := init (ctl_settings c) (db c) [] all_alive in
  queue c' = queue c ∧
  instances c' = instances c ∧
  db c' = db c ∧
  ctl_settings c' = ctl_settings c ∧
  next_instance_id c' = py_max (inst_id <$> instances c) 0 + 1.
Proof.
  apply (restart_keeps_state default_settings empty_store three_urls
           all_alive all_alive
           [StartNext (quiet_world 4001); StartNext (quiet_world 4002);
            Stop 2 all_alive]).
  - constructor; simpl; constructor.
  - vm_compute. repeat constructor; discriminate.
Defined.

(** In that run id 2 was given out and stopped; after the restart the
    counter is at 2 again, and the next instance gets the ports instance 2
    had. *)
Example restart_reuses_id :
  let c := run (init default_settings empty_store three_urls all_alive)
             [StartNext (quiet_world 4001); StartNext (quiet_world 4002);
              Stop 2 all_alive] in
  let c' := init (ctl_settings c) (db c) [] all_alive in
  next_instance_id c = 3 ∧ next_instance_id c' = 2 ∧
  (start_next (quiet_world 4003) c').1.1 = Started 2 "http://c.example/3".
Proof. by vm_compute. Qed.

(** * The playlist *)

Lemma comment_is_no_url (url : string) :
  String.prefix "#" url = true → valid_url url = false.
Proof.
  intros [rest ->]%prefix_starts_with. reflexivity.
Qed.

Lemma playlist_line_enqueues (strip : string → string) (c : controller)
    (line : string) :
  playlist_line strip c line = (add_to_queue (strip line) c).2.
Proof.
  unfold playlist_line. case_bool_decide as Hempty; simpl.
  - destruct (String.prefix "#" (strip line)) eqn:Hc; simpl; [|done].
    by rewrite add_to_queue_rejects by by apply comment_is_no_url.
  - rewrite Hempty. by rewrite add_to_queue_rejects.
Qed.

Lemma add_to_queue_urls (url : string) (c : controller) :
  q_url <$> queue (add_to_queue url c).2 =
    (q_url <$> queue c) ++ (if valid_url url then [url] else []).
Proof.
  unfold add_to_queue. destruct (valid_url url); simpl.
  - by rewrite fmap_app.
  - by rewrite app_nil_r.
Qed.

(** X17.  Loading a playlist queues, in the order of the file, the
    stripped lines that start with ["http://"] or ["https://"], and
    nothing else; skipping empty lines and lines that start with [#]
    makes no difference, since [add_to_queue] would refuse them.  The
    instances and the id counter are not touched. *)
Theorem playlist_queues_urls (strip : string → string) (lines : list string)
    (c : controller) :
  load_playlist strip lines c =
    foldl (λ c line, (add_to_queue (strip line) c).2) c lines ∧
  q_url <$> queue (load_playlist strip lines c) =
    (q_url <$> queue c) ++
    filter (λ url, valid_url url = true) (strip <$> lines) ∧
  instances (load_playlist strip lines c) = instances c ∧
  next_instance_id (load_playlist strip lines c) = next_instance_id c.
Proof.
  unfold load_playlist. revert c.
  induction lines as [|line lines IH]; intros c; simpl.
  - by rewrite app_nil_r.
  - rewrite playlist_line_enqueues.
    destruct (IH (add_to_queue (strip line) c).2) as (-> & -> & -> & ->).
    destruct (add_to_queue_frame (strip line) c) as (-> & _ & -> & _).
    repeat split; try done.
    rewrite add_to_queue_urls, filter_cons, <- app_assoc.
    by destruct (valid_url (strip line)); case_decide.
Qed.

(** * The window and the controller *)


(** * Filling the free slots *)

Lemma blocked_not_started (w : spawn_world) (c : controller) :
  blocked w → (start_next w c).2 = c.
Proof.
  intros Hb. apply not_started_same.
  destruct (start_next w c).1.1 as [| | |instance_id url] eqn:Hr; try done.
  exfalso. unfold start_next in Hr.
  destruct (queue c) as [|item rest]; [done|].
  destruct (decide _) as [Hfull|Hroom]; [done|].
  pose proof (start_taby_started w (q_url item) (next_instance_id c) c) as Hyes.
  destruct (start_taby w (q_url item) (next_instance_id c) c)
    as [[r effs] c']; simpl in *.
  destruct r; try done.
  destruct Hyes as (_ & H1 & _ & Hp & _ & Hw); [done|].
  destruct Hb as [Hbusy|[Hnone|Hlock]];
    [by apply H1|by apply Hp|congruence].
Qed.

(** X19.  While no start can succeed the loop of [main] that fills the
    free slots does not end: with room and a queued item, however many
    turns it is given, it is still turning, on an unchanged controller. *)
Theorem fill_never_ends (ws : list spawn_world) (c : controller) :
  Forall blocked ws → can_fill c → fill ws c = None.
Proof.
  intros Hws Hfill. induction Hws as [|w ws Hw _ IH]; simpl.
  - by rewrite decide_True.
  - rewrite decide_True by done. by rewrite blocked_not_started.
Qed.

Lemma fill_never_ends_witness :
  fill [busy_world 4001; busy_world 4002; busy_world 4003]
    (init default_settings empty_store three_urls all_alive) = None.
Proof.
  apply (fill_never_ends [busy_world 4001; busy_world 4002; busy_world 4003]).
  - repeat constructor; by left.
  - split; [vm_compute; reflexivity|discriminate].
Defined.

Lemma start_taby_succeeds (w : spawn_world) (url : string) (instance_id : Z)
    (c : controller) :
  welcoming w →
  ports_in_range (ctl_settings c) instance_id →
  instance_id ∉ inst_id <$> instances_table (db c) →
  (start_taby w url instance_id c).1.1 = TabyStarted.
Proof.
  intros (Hfree & Hp & Hw) [Hr Hh] Hk.
  unfold start_taby, check_port_availability.
  rewrite !decide_True by done.
  pose proof (Hfree (port_of (rtsp_base_port (ctl_settings c)) instance_id
                       (port_increment (ctl_settings c)))) as H1.
  pose proof (Hfree (port_of (http_base_port (ctl_settings c)) instance_id
                       (port_increment (ctl_settings c)))) as H2.
  apply Z.eqb_neq in H1, H2. rewrite H1, H2. simpl.
  destruct (popen w) as [p|]; [|done].
  unfold insert_instance, has_key. rewrite Hw. simpl.
  by rewrite bool_decide_eq_false_2.
Qed.

Lemma start_next_welcoming (w : spawn_world) (c : controller) :
  consistent c → can_fill c → welcoming w →
  ports_in_range (ctl_settings c) (next_instance_id c) →
  ∃ item rest p, queue c = item :: rest ∧ popen w = Some p ∧
                 (start_next w c).2 = after_admission c item rest p.
Proof.
  intros Hc [Hroom Hq] Hw Hports.
  assert (Hfresh : next_instance_id c ∉ inst_id <$> instances_table (db c)).
  { rewrite <- (instances_mirrored c Hc).
    intros [i [Heq Hi]]%list_elem_of_fmap.
    pose proof (ids_below_next c Hc) as Hn. rewrite list.Forall_forall in Hn.
    specialize (Hn i Hi). lia. }
  assert (Hok : next_ok (start_next w c).1.1 = true).
  { unfold start_next. destruct (queue c) as [|item rest]; [done|].
    destruct (decide _) as [Hfull|_]; [lia|].
    pose proof (start_taby_succeeds w (q_url item) (next_instance_id c) c
                  Hw Hports Hfresh) as Hyes.
    destruct (start_taby w (q_url item) (next_instance_id c) c)
      as [[r effs] c']; simpl in *. by rewrite Hyes. }
  destruct (start_next_cases w c Hc)
    as [[_ Hr]|[(_ & _ & Hr)|(item & rest & Hqe & _ &
         [(why & effs & _ & Hr)|(p & effs & Hp & Hr)])]];
    rewrite Hr in Hok |- *; try done.
  by exists item, rest, p.
Qed.

Lemma fill_welcoming (ws : list spawn_world) (c : controller) :
  consistent c →
  Forall welcoming ws →
  (∀ k, 0 ≤ k < Z.of_nat (length (queue c)) →
        ports_in_range (ctl_settings c) (next_instance_id c + k)) →
  (length (queue c) ≤ length ws)%nat →
  ∃ c' n new,
    fill ws c = Some c' ∧
    ¬ can_fill c' ∧
    (n ≤ length (queue c))%nat ∧
    queue c' = drop n (queue c) ∧
    instances c' = instances c ++ new ∧
    inst_url <$> new = q_url <$> take n (queue c) ∧
    inst_id <$> new = seqZ (next_instance_id c) (Z.of_nat n) ∧
    Some <$> (pid <$> new) = popen <$> take n ws ∧
    Forall (λ i, i = new_instance (ctl_settings c) (inst_url i) (inst_id i)
                       (pid i)) new ∧
    next_instance_id c' = next_instance_id c + Z.of_nat n ∧
    ctl_settings c' = ctl_settings c ∧
    consistent c'.
Proof.
  intros Hc Hws. revert c Hc.
  induction Hws as [|w ws Hw _ IH]; intros c Hc Hports Hlen.
  - exists c, 0%nat, []. simpl in *.
    destruct (queue c) as [|item rest] eqn:Hq; [|simpl in Hlen; lia].
    rewrite decide_False by (intros [_ Hne]; by rewrite Hq in Hne).
    split; [done|]. split; [intros [_ Hne]; by rewrite Hq in Hne|].
    rewrite app_nil_r. split_and!; try done; lia.
  - simpl. destruct (decide (can_fill c)) as [Hfill|Hstop].
    + assert (Hp0 : ports_in_range (ctl_settings c) (next_instance_id c)).
      { replace (next_instance_id c) with (next_instance_id c + 0) by lia.
        apply Hports. destruct Hfill as [_ Hne].
        destruct (queue c); [done|]. simpl. lia. }
      destruct (start_next_welcoming w c Hc Hfill Hw Hp0)
        as (item & rest & p & Hq & Hp & Hnext).
      rewrite Hnext.
      destruct (IH (after_admission c item rest p))
        as (c' & n & new & Hf & Hstop & Hn & Hq' & Hi' & Hu' & Hid' & Hp' &
            Hrec' & Hn' & Hs' & Hc').
      * by apply after_admission_consistent.
      * intros k Hk. simpl in *.
        replace (next_instance_id c + 1 + k)
          with (next_instance_id c + (k + 1)) by lia.
        apply Hports. rewrite Hq. simpl. lia.
      * simpl in *. rewrite Hq in Hlen. simpl in Hlen. lia.
      * exists c', (S n),
          (new_instance (ctl_settings c) (q_url item) (next_instance_id c) p
             :: new).
        simpl in *. rewrite Hq. simpl.
        split_and!; try done.
        -- lia.
        -- by rewrite Hi', <- app_assoc.
        -- f_equal. exact Hu'.
        -- rewrite (seqZ_cons (next_instance_id c)) by lia.
           f_equal. etrans; [exact Hid'|]. f_equal; lia.
        -- rewrite Hp. f_equal. exact Hp'.
        -- by constructor.
        -- lia.
    + exists c, 0%nat, []. rewrite app_nil_r.
      split_and!; try done; simpl; lia.
Qed.

(** X20.  When nothing listens on the ports, the script starts and the
    database can be written, the loop of [main] that fills the free slots
    ends after at most as many turns as there are queued items, provided
    the ids it may use have ports in 0..65535.  It stops because the
    queue is empty or the list is full, and it has then started the first
    [n] queued URLs and nothing else: the records appended to
    [self.instances] carry those URLs in their order, the consecutive ids
    from [next_instance_id] on, the pids [Popen] returned turn by turn,
    and the ports and device names [start_taby] gives each id; the queue
    is left with the remaining items, the id counter has advanced by [n],
    and the store holds the same queue and instances as memory. *)
Theorem fill_ends (s : settings) (d : store) (urls : list string)
    (probe : Z → kill_result) (ops : list op) (ws : list spawn_world) :
  store_ok d →
  let c := run (init s d urls probe) ops in
  Forall welcoming ws →
  (∀ k, 0 ≤ k < Z.of_nat (length (queue c)) →
        ports_in_range (ctl_settings c) (next_instance_id c + k)) →
  (length (queue c) ≤ length ws)%nat →
  ∃ c' n new,
    fill ws c = Some c' ∧
    (queue c' = [] ∨ max_concurrent (ctl_settings c') ≤ live_count c') ∧
    (n ≤ length (queue c))%nat ∧
    queue c' = drop n (queue c) ∧
    instances c' = instances c ++ new ∧
    inst_url <$> new = q_url <$> take n (queue c) ∧
    inst_id <$> new = seqZ (next_instance_id c) (Z.of_nat n) ∧
    Some <$> (pid <$> new) = popen <$> take n ws ∧
    Forall (λ i, i = new_instance (ctl_settings c) (inst_url i) (inst_id i)
                       (pid i)) new ∧
    next_instance_id c' = next_instance_id c + Z.of_nat n ∧
    queue_table (db c') = queue c' ∧
    instances_table (db c') = instances c'.
Proof.
  intros Hd c Hws Hports Hlen.
  assert (Hc : consistent c) by by apply run_consistent, init_consistent.
  destruct (fill_welcoming ws c Hc Hws Hports Hlen)
    as (c' & n & new & Hf & Hstop & Hn & Hq & Hi & Hu & Hid & Hp & Hrec &
        Hnext & _ & Hc').
  exists c', n, new. split_and!; try done.
  - unfold can_fill, live_count in *.
    destruct (queue c') as [|item rest]; [by left|]. right.
    destruct (decide (max_concurrent (ctl_settings c')
                      ≤ Z.of_nat (length (instances c')))); [done|].
    exfalso. apply Hstop. split; [lia|done].
  - symmetry. apply Hc'.
  - symmetry. apply Hc'.
Qed.

Lemma fill_ends_witness :
  let c := init (with_limit 2 default_settings) empty_store three_urls
             all_alive in
  let ws := [quiet_world 4001; quiet_world 4002; quiet_world 4003] in
  ∃ c' n new,
    fill ws c = Some c' ∧
    (queue c' = [] ∨ max_concurrent (ctl_settings c') ≤ live_count c') ∧
    (n ≤ length (queue c))%nat ∧
    queue c' = drop n (queue c) ∧
    instances c' = instances c ++ new ∧
    inst_url <$> new = q_url <$> take n (queue c) ∧
    inst_id <$> new = seqZ (next_instance_id c) (Z.of_nat n) ∧
    Some <$> (pid <$> new) = popen <$> take n ws ∧
    Forall (λ i, i = new_instance (ctl_settings c) (inst_url i) (inst_id i)
                       (pid i)) new ∧
    next_instance_id c' = next_instance_id c + Z.of_nat n ∧
    queue_table (db c') = queue c' ∧
    instances_table (db c') = instances c'.
Proof.
  apply (fill_ends (with_limit 2 default_settings) empty_store three_urls
           all_alive []
           [quiet_world 4001; quiet_world 4002; quiet_world 4003]).
  - constructor; simpl; constructor.
  - repeat constructor; done.
  - intros k Hk. change (0 ≤ k < 3) in Hk.
    change (ports_in_range (with_limit 2 default_settings) (1 + k)).
    unfold ports_in_range, port_of. simpl. lia.
  - simpl. lia.
Defined.

Example fill_starts_two :
  fill [quiet_world 4001; quiet_world 4002; quiet_world 4003]
    (init (with_limit 2 default_settings) empty_store three_urls all_alive)
  = Some (run (init (with_limit 2 default_settings) empty_store three_urls
                 all_alive)
            [StartNext (quiet_world 4001); StartNext (quiet_world 4002)]).
Proof. by vm_compute. Qed.

(** * The stand-alone script *)

Section InsertFacts.
Context {A : Type} (key : A → Z).

Lemma insert_row_elem (r x : A) (t : list A) :
  x ∈ insert_row key r t ↔ x = r ∨ x ∈ t.
Proof.
  induction t as [|y t IH]; simpl.
  - rewrite list_elem_of_singleton, elem_of_nil. tauto.
  - destruct (decide (key r < key y)).
    + by rewrite elem_of_cons.
    + rewrite !elem_of_cons, IH. tauto.
Qed.

Lemma insert_row_length (r : A) (t : list A) :
  length (insert_row key r t) = S (length t).
Proof.
  induction t as [|y t IH]; simpl; [done|].
  destruct (decide (key r < key y)); simpl; [done|]. by rewrite IH.
Qed.
End InsertFacts.

Lemma legacy_oldest_in (t : list Legacy.row) (r : Legacy.row) :
  Legacy.oldest t = Some r → r ∈ t.
Proof.
  revert r. induction t as [|x t IH]; intros r; simpl; [done|].
  destruct (Legacy.oldest t) as [r'|].
  - destruct (decide _); intros [= <-]; [right; by apply IH|by left].
  - intros [= <-]. by left.
Qed.


Lemma legacy_next_id_fresh (c : Legacy.controller) :
  has_key Legacy.id (Legacy.next_id c) (Legacy.taby_instances c) = false.
Proof.
  unfold Legacy.next_id.
  destruct (Legacy.taby_instances c) as [|r t] eqn:Ht; [done|].
  apply has_key_false.
  pose proof (py_max_lt_succ (Legacy.id <$> r :: t) 0) as Hlt.
  by rewrite Forall_fmap in Hlt.
Qed.

(** What [start_taby] of the script does with the id [next_id] gives. *)
Lemma legacy_start_taby_next (w : Legacy.world) (u : string)
    (c : Legacy.controller) :
  Legacy.start_taby w u (Legacy.next_id c) c =
    match Legacy.popen w with
    | None => (None, c)
    | Some p =>
        (Some p,
         {| Legacy.ctl_settings := Legacy.ctl_settings c;
            Legacy.urls_queue := Legacy.urls_queue c;
            Legacy.taby_instances :=
              insert_row Legacy.id
                (Legacy.Row (Legacy.next_id c) p u (Legacy.get_name w)
                   (String.substring 0 15 (Legacy.get_name w +:+ "_sink"))
                   (String.substring 0 15 (Legacy.get_name w +:+ "_source"))
                   (Legacy.rtsp_base_port (Legacy.ctl_settings c)
                    + Legacy.next_id c
                      * Legacy.port_increment (Legacy.ctl_settings c))
                   (Legacy.http_base_port (Legacy.ctl_settings c)
                    + Legacy.next_id c
                      * Legacy.port_increment (Legacy.ctl_settings c))
                   (Legacy.now w) Legacy.Running)
                (Legacy.taby_instances c);
            Legacy.url_queue := Legacy.url_queue c |})
    end.
Proof.
  unfold Legacy.start_taby. destruct (Legacy.popen w); [|done].
  by rewrite legacy_next_id_fresh.
Qed.

Lemma legacy_running_count (c : Legacy.controller) :
  Forall (λ r, Legacy.state r = Legacy.Running) (Legacy.taby_instances c) →
  Legacy.running_count c = Z.of_nat (length (Legacy.taby_instances c)).
Proof.
  intros Hall. unfold Legacy.running_count.
  rewrite filter_all; [done|]. by apply list.Forall_forall.
Qed.

Lemma legacy_start_grows (w : Legacy.world) (u : string)
    (c : Legacy.controller) :
  let c' := (Legacy.start_taby w u (Legacy.next_id c) c).2 in
  Legacy.ctl_settings c' = Legacy.ctl_settings c ∧
  Legacy.urls_queue c' = Legacy.urls_queue c ∧
  (length (Legacy.taby_instances c') ≤ S (length (Legacy.taby_instances c)))%nat ∧
  (Forall (λ r, Legacy.state r = Legacy.Running) (Legacy.taby_instances c) →
   Forall (λ r, Legacy.state r = Legacy.Running) (Legacy.taby_instances c')).
Proof.
  rewrite legacy_start_taby_next. destruct (Legacy.popen w) as [p|]; simpl.
  - rewrite insert_row_length. repeat split; try done.
    intros Hall. apply list.Forall_forall. intros x [->|Hx]%insert_row_elem.
    + done.
    + rewrite list.Forall_forall in Hall. by apply Hall.
  - repeat split; try done; lia.
Qed.

Lemma legacy_stop_shrinks (w : Legacy.world) (instance_id : Z)
    (c : Legacy.controller) :
  let c' := (Legacy.stop_taby w instance_id c).2 in
  Legacy.ctl_settings c' = Legacy.ctl_settings c ∧
  Legacy.urls_queue c' = Legacy.urls_queue c ∧
  Legacy.taby_instances c' `sublist_of` Legacy.taby_instances c ∧
  ((Legacy.stop_taby w instance_id c).1 ≠ None →
   instance_id ∈ Legacy.id <$> Legacy.taby_instances c →
   (length (Legacy.taby_instances c') < length (Legacy.taby_instances c))%nat).
Proof.
  unfold Legacy.stop_taby.
  destruct (find _ _) as [r|] eqn:Hfind.
  - apply find_some in Hfind as [Hin Hid]. apply bool_decide_eq_true in Hid.
    apply list_elem_of_In in Hin.
    destruct (Legacy.kill w (Legacy.pid r)); simpl;
      (repeat split; [apply sublist_filter || done|]); try done;
      intros _ _; apply (length_filter_lt _ _ r); try done;
      by intros Hne; apply Hne.
  - simpl. repeat split; try done. intros _ [r [-> Hr]]%list_elem_of_fmap.
    apply list_elem_of_In in Hr.
    eapply find_none in Hfind; [|exact Hr]. simpl in Hfind.
    by rewrite bool_decide_eq_true_2 in Hfind.
Qed.

Lemma legacy_start_next_within (w : Legacy.world) (c : Legacy.controller) :
  legacy_within c →
  legacy_within (Legacy.start_next w c).2 ∧
  Legacy.ctl_settings (Legacy.start_next w c).2 = Legacy.ctl_settings c.
Proof.
  intros [Hall Hlen]. unfold Legacy.start_next.
  destruct (Legacy.urls_queue c) as [|u rest] eqn:Hq; [done|].
  assert (Hstart : ∀ c1,
    Legacy.ctl_settings c1 = Legacy.ctl_settings c →
    Forall (λ r, Legacy.state r = Legacy.Running) (Legacy.taby_instances c1) →
    Z.of_nat (length (Legacy.taby_instances c1))
      < Legacy.max_concurrent (Legacy.ctl_settings c) →
    let c3 := (Legacy.start_taby w u (Legacy.next_id (Legacy.pop_url c1))
                 (Legacy.pop_url c1)).2 in
    legacy_within c3 ∧ Legacy.ctl_settings c3 = Legacy.ctl_settings c).
  { intros c1 Hs1 Hall1 Hlt1.
    destruct (legacy_start_grows w u (Legacy.pop_url c1))
      as (Hs3 & _ & Hl3 & Ha3).
    change (Legacy.taby_instances (Legacy.pop_url c1))
      with (Legacy.taby_instances c1) in Hl3, Ha3.
    change (Legacy.ctl_settings (Legacy.pop_url c1))
      with (Legacy.ctl_settings c1) in Hs3.
    intros c3. subst c3. unfold legacy_within. rewrite Hs3, Hs1.
    split; [split|done]; [by apply Ha3|lia]. }
  destruct (decide _) as [Hfull|Hroom].
  - destruct (Legacy.oldest (Legacy.taby_instances c)) as [r|] eqn:Hold;
      [|done].
    apply legacy_oldest_in in Hold.
    destruct (legacy_stop_shrinks w (Legacy.id r) c)
      as (Hs1 & _ & Hsub & Hshrink).
    assert (Hall1 : Forall (λ r, Legacy.state r = Legacy.Running)
              (Legacy.taby_instances (Legacy.stop_taby w (Legacy.id r) c).2))
      by (eapply Forall_sublist; [exact Hsub|exact Hall]).
    pose proof (sublist_length _ _ Hsub) as Hle.
    destruct (Legacy.stop_taby w (Legacy.id r) c) as [[b|] c1] eqn:Hstop;
      cbn [fst snd] in *.
    + assert (length (Legacy.taby_instances c1)
              < length (Legacy.taby_instances c))%nat as Hlt.
      { apply Hshrink; [done|]. apply list_elem_of_fmap. by exists r. }
      specialize (Hstart c1 Hs1 Hall1).
      destruct (Legacy.start_taby w u (Legacy.next_id (Legacy.pop_url c1))
                  (Legacy.pop_url c1)) as [[p|] c3]; cbn [fst snd] in *;
        apply Hstart; lia.
    + unfold legacy_within. rewrite Hs1. split; [split|done]; [done|lia].
  - rewrite legacy_running_count in Hroom by done.
    specialize (Hstart c eq_refl Hall).
    destruct (Legacy.start_taby w u (Legacy.next_id (Legacy.pop_url c))
                (Legacy.pop_url c)) as [[p|] c3]; cbn [fst snd] in *;
      apply Hstart; lia.
Qed.

Lemma legacy_delete_where_within (P : Legacy.row → Prop)
    `{!∀ r, Decision (P r)} (c : Legacy.controller) :
  legacy_within c →
  legacy_within (Legacy.delete_where P c) ∧
  Legacy.ctl_settings (Legacy.delete_where P c) = Legacy.ctl_settings c.
Proof.
  intros [Hall Hlen]. unfold legacy_within, Legacy.delete_where.
  cbn [Legacy.taby_instances Legacy.ctl_settings].
  pose proof (sublist_filter (λ r, ¬ P r) (Legacy.taby_instances c)) as Hsub.
  split; [split|done].
  - by eapply Forall_sublist.
  - apply sublist_length in Hsub. lia.
Qed.

(** A pass of [update_statuses] that finds no process gone leaves the
    table as it is, whether it ends or is left by an exception. *)
Lemma legacy_mark_rows_none_gone (probe : Z → kill_result)
    (t : list Legacy.row) :
  Legacy.none_gone probe → (Legacy.mark_rows probe t).2 = t.
Proof.
  intros Hp. induction t as [|r t IH]; [done|]. cbn [Legacy.mark_rows].
  destruct (Legacy.mark_rows probe t) as [ok t'']. cbn [snd] in IH. subst t''.
  destruct (decide _); [|done].
  pose proof (Hp (Legacy.pid r)). by destruct (probe (Legacy.pid r)).
Qed.

Lemma legacy_update_within (probe : Z → kill_result) (c : Legacy.controller) :
  Legacy.none_gone probe →
  legacy_within c →
  legacy_within (Legacy.update_statuses probe c).2 ∧
  Legacy.ctl_settings (Legacy.update_statuses probe c).2
    = Legacy.ctl_settings c.
Proof.
  intros Hp Hc. pose proof (legacy_mark_rows_none_gone probe
                              (Legacy.taby_instances c) Hp) as Hsame.
  unfold Legacy.update_statuses, legacy_within in *.
  destruct (Legacy.mark_rows probe (Legacy.taby_instances c)) as [ok t].
  simpl in *. by subst t.
Qed.

Lemma legacy_exec_within (c : Legacy.controller) (cmd : Legacy.command) :
  Legacy.marks_nothing cmd →
  legacy_within c →
  legacy_within (Legacy.exec c cmd) ∧
  Legacy.ctl_settings (Legacy.exec c cmd) = Legacy.ctl_settings c.
Proof.
  intros Hcmd Hc. destruct cmd as [w arg|w|w i|w|probe|]; simpl.
  - unfold Legacy.add. destruct (decide _) as [Hroom|Hfull]; [|done].
    apply (legacy_start_next_within w
      {| Legacy.ctl_settings := Legacy.ctl_settings c;
         Legacy.urls_queue := Legacy.urls_queue c ++ [arg];
         Legacy.taby_instances := Legacy.taby_instances c;
         Legacy.url_queue := Legacy.url_queue c ++ [arg] |}).
    exact Hc.
  - by apply legacy_start_next_within.
  - destruct Hc as [Hall Hlen].
    destruct (legacy_stop_shrinks w i c) as (Hs & _ & Hsub & _).
    split; [split|done].
    + by eapply Forall_sublist.
    + rewrite Hs. apply sublist_length in Hsub. lia.
  - unfold Legacy.stop_all_tabies.
    destruct (bool_decide _); cbn [snd]; [done|].
    by apply legacy_delete_where_within.
  - by apply legacy_update_within.
  - by apply legacy_delete_where_within.
Qed.

Lemma legacy_session_within (c : Legacy.controller)
    (cmds : list Legacy.command) :
  Forall Legacy.marks_nothing cmds →
  legacy_within c →
  legacy_within (Legacy.session c cmds) ∧
  Legacy.ctl_settings (Legacy.session c cmds) = Legacy.ctl_settings c.
Proof.
  intros Hcmds. revert c.
  induction Hcmds as [|cmd cmds Hcmd _ IH]; intros c Hc; [done|].
  simpl. destruct (legacy_exec_within c cmd Hcmd Hc) as [Hc1 Hs1].
  destruct (IH _ Hc1) as [Hc2 Hs2]. split; [done|]. etrans; [exact Hs2|done].
Qed.

Lemma legacy_fill_within (ws : list Legacy.world) (c : Legacy.controller) :
  legacy_within c →
  legacy_within (Legacy.state_of (Legacy.fill ws c)) ∧
  Legacy.ctl_settings (Legacy.state_of (Legacy.fill ws c))
    = Legacy.ctl_settings c.
Proof.
  revert c. induction ws as [|w ws IH]; intros c Hc; simpl.
  - by destruct (decide _).
  - destruct (decide _); [|done].
    destruct (legacy_start_next_within w c Hc) as [Hc1 Hs1].
    destruct (Legacy.start_next w c) as [[] c1]; cbn [snd] in *; [|done].
    destruct (IH c1 Hc1) as [Hc2 Hs2]. split; [done|]. etrans; [exact Hs2|done].
Qed.

(** A call of the script's [start_next] that returns takes one URL off a
    queue that is not empty. *)
Lemma legacy_start_next_pops (w : Legacy.world) (c : Legacy.controller) :
  Legacy.urls_queue c ≠ [] →
  (Legacy.start_next w c).1 = true →
  S (length (Legacy.urls_queue (Legacy.start_next w c).2))
    = length (Legacy.urls_queue c).
Proof.
  intros Hq. unfold Legacy.start_next.
  destruct (Legacy.urls_queue c) as [|u rest] eqn:Hu; [done|].
  assert (Hroom : ∀ (o : option bool) c1,
    Legacy.urls_queue c1 = Legacy.urls_queue c →
    (match o with
     | None => (false, c1)
     | Some _ =>
         match Legacy.start_taby w u (Legacy.next_id (Legacy.pop_url c1))
                 (Legacy.pop_url c1) with
         | (None, c3) => (false, c3)
         | (Some _, c3) => (true, c3)
         end
     end).1 = true →
    S (length (Legacy.urls_queue
         (match o with
          | None => (false, c1)
          | Some _ =>
              match Legacy.start_taby w u (Legacy.next_id (Legacy.pop_url c1))
                      (Legacy.pop_url c1) with
              | (None, c3) => (false, c3)
              | (Some _, c3) => (true, c3)
              end
          end).2)) = length (u :: rest)).
  { intros [b|] c1 Hq1; [|done].
    destruct (legacy_start_grows w u (Legacy.pop_url c1)) as (_ & Hq3 & _).
    destruct (Legacy.start_taby w u (Legacy.next_id (Legacy.pop_url c1))
                (Legacy.pop_url c1)) as [[p|] c3]; cbn [fst snd] in *;
      [|done].
    intros _. rewrite Hq3. simpl. by rewrite Hq1, Hu. }
  destruct (decide _) as [Hfull|Hnotfull].
  - destruct (Legacy.oldest (Legacy.taby_instances c)) as [r|]; [|done].
    destruct (legacy_stop_shrinks w (Legacy.id r) c) as (_ & Hq1 & _).
    destruct (Legacy.stop_taby w (Legacy.id r) c) as [o c1]; cbn [snd] in *.
    apply Hroom. by rewrite Hq1.
  - by apply (Hroom (Some true) c).
Qed.

(** The first loop of [run] ends or is left by an exception within as
    many turns as URLs are queued. *)
Lemma legacy_fill_ends (ws : list Legacy.world) (c : Legacy.controller) :
  (length (Legacy.urls_queue c) ≤ length ws)%nat →
  ∀ c', Legacy.fill ws c ≠ Legacy.Unfinished c'.
Proof.
  revert c. induction ws as [|w ws IH]; intros c Hlen c'; simpl.
  - destruct (decide _) as [[_ Hq]|]; [|done].
    destruct (Legacy.urls_queue c); [done|simpl in Hlen; lia].
  - destruct (decide _) as [[_ Hq]|]; [|done].
    pose proof (legacy_start_next_pops w c Hq) as Hpop.
    destruct (Legacy.start_next w c) as [[] c1]; cbn [fst snd] in *; [|done].
    apply IH. specialize (Hpop eq_refl). simpl in Hlen. lia.
Qed.

(** X21.  The stand-alone script, run on a new database file with a
    limit that is not negative: as long as no liveness probe finds a
    process gone (neither the pass of [update_statuses] that [run] makes
    before its first prompt nor a [list] command marks a row dead),
    wherever [run] stands (in its first loop, left by an exception, or
    after any commands) the table holds no more rows than
    [max_concurrent], all of them [Running].  The first loop is over
    within as many turns as URLs were given. *)
Theorem legacy_rows_within_limit (s : Legacy.settings) (urls : list string)
    (list_only : bool) (ws : list Legacy.world) (probe : Z → kill_result)
    (cmds : list Legacy.command) :
  0 ≤ Legacy.max_concurrent s →
  Legacy.none_gone probe →
  Forall Legacy.marks_nothing cmds →
  let o := Legacy.run list_only ws probe cmds (Legacy.fresh s urls) in
  Z.of_nat (length (Legacy.taby_instances (Legacy.state_of o)))
    ≤ Legacy.max_concurrent s ∧
  Forall (λ r, Legacy.state r = Legacy.Running)
    (Legacy.taby_instances (Legacy.state_of o)) ∧
  ((length urls ≤ length ws)%nat → ∀ c, o ≠ Legacy.Unfinished c).
Proof.
  intros Hmax Hprobe Hcmds o.
  assert (H0 : legacy_within (Legacy.fresh s urls))
    by (split; simpl; [constructor|lia]).
  assert (Hin : legacy_within (Legacy.state_of o) ∧
                Legacy.ctl_settings (Legacy.state_of o) = s).
  { subst o. unfold Legacy.run. destruct list_only.
    - destruct (legacy_update_within probe _ Hprobe H0) as [H1 Hs1].
      by destruct (Legacy.update_statuses probe (Legacy.fresh s urls))
        as [[] c1].
    - destruct (legacy_fill_within ws _ H0) as [H1 Hs1].
      destruct (Legacy.fill ws (Legacy.fresh s urls)) as [c1|c1|c1];
        cbn [Legacy.state_of] in *; [done..|].
      destruct (legacy_update_within probe _ Hprobe H1) as [H2 Hs2].
      destruct (Legacy.update_statuses probe c1) as [[] c2];
        cbn [snd Legacy.state_of] in *;
        [|split; [done|by rewrite Hs2]].
      destruct (legacy_session_within c2 cmds Hcmds H2) as [H3 Hs3].
      split; [done|by rewrite Hs3, Hs2]. }
  destruct Hin as [[Hall Hlen] Hs]. rewrite Hs in Hlen.
  split_and!; [done..|].
  intros Hws c. subst o. unfold Legacy.run. destruct list_only.
  - by destruct (Legacy.update_statuses probe (Legacy.fresh s urls))
      as [[] c1].
  - pose proof (legacy_fill_ends ws (Legacy.fresh s urls) Hws) as Hends.
    destruct (Legacy.fill ws (Legacy.fresh s urls)) as [c1|c1|c1];
      [by destruct (Hends c1)|done|].
    by destruct (Legacy.update_statuses probe c1) as [[] c2].
Qed.

Lemma legacy_rows_within_limit_witness :
  let s := Legacy.with_limit 1 Legacy.default_settings in
  let o := Legacy.run false [Legacy.calm 100 4001] all_alive
             [Legacy.StartNext (Legacy.calm 101 4002);
              Legacy.List all_alive;
              Legacy.Add (Legacy.calm 102 4003) "http://d.example/4"]
             (Legacy.fresh s three_urls) in
  Z.of_nat (length (Legacy.taby_instances (Legacy.state_of o)))
    ≤ Legacy.max_concurrent s ∧
  Forall (λ r, Legacy.state r = Legacy.Running)
    (Legacy.taby_instances (Legacy.state_of o)) ∧
  ((length three_urls ≤ length [Legacy.calm 100 4001])%nat →
   ∀ c, o ≠ Legacy.Unfinished c).
Proof.
  apply (legacy_rows_within_limit
           (Legacy.with_limit 1 Legacy.default_settings) three_urls false
           [Legacy.calm 100 4001] all_alive).
  - simpl. lia.
  - intros p. discriminate.
  - repeat constructor. intros p. discriminate.
Defined.

(** Once a probe finds a process gone the bound can be passed, by
    [start-next] alone: the pass of [update_statuses] before the first
    prompt marks a row dead, the next start counts the [Running] rows
    only and finds room, and the one after it removes the oldest of all
    rows, which is the dead one. *)
Example legacy_limit_passed :
  let s := Legacy.with_limit 2 Legacy.default_settings in
  let urls := ("http://d.example/4" :: three_urls)%string in
  let ws := [Legacy.calm 100 4001; Legacy.calm 101 4002] in
  let c1 := Legacy.state_of
              (Legacy.run false ws first_died
                 [Legacy.StartNext (Legacy.calm 102 4003)]
                 (Legacy.fresh s urls)) in
  let c2 := Legacy.state_of
              (Legacy.run false ws first_died
                 [Legacy.StartNext (Legacy.calm 102 4003);
                  Legacy.StartNext (Legacy.calm 103 4004)]
                 (Legacy.fresh s urls)) in
  Legacy.pid <$> Legacy.taby_instances c1 = [4001; 4002; 4003] ∧
  Legacy.state <$> Legacy.taby_instances c1
    = [Legacy.Dead; Legacy.Running; Legacy.Running] ∧
  Legacy.pid <$> Legacy.taby_instances c2 = [4002; 4003; 4004] ∧
  Legacy.running_count c2 = 3.
Proof. by vm_compute. Qed.


Lemma legacy_find_none (instance_id : Z) (t : list Legacy.row) :
  instance_id ∉ Legacy.id <$> t →
  find (λ r, bool_decide (Legacy.id r = instance_id)) t = None.
Proof.
  induction t as [|x t IH]; [done|]. rewrite fmap_cons.
  intros [Hne Hnot]%not_elem_of_cons. simpl.
  rewrite bool_decide_eq_false_2 by done. by apply IH.
Qed.




(** X23.  In the stand-alone script, after [stop_taby] returned [True]
    no row carries the id, and stopping the same id again returns
    [False] and changes nothing. *)
Theorem legacy_stopped_is_gone (w : Legacy.world) (instance_id : Z)
    (c : Legacy.controller) :
  (Legacy.stop_taby w instance_id c).1 = Some true →
  let c' := (Legacy.stop_taby w instance_id c).2 in
  instance_id ∈ Legacy.id <$> Legacy.taby_instances c ∧
  (instance_id ∉ Legacy.id <$> Legacy.taby_instances c') ∧
  ∀ w', Legacy.stop_taby w' instance_id c' = (Some false, c').
Proof.
  unfold Legacy.stop_taby.
  destruct (find _ _) as [r|] eqn:Hfind; [|done].
  apply find_some in Hfind as [Hin Hid]. apply bool_decide_eq_true in Hid.
  apply list_elem_of_In in Hin.
  assert (Hwas : instance_id ∈ Legacy.id <$> Legacy.taby_instances c).
  { apply list_elem_of_fmap. by exists r. }
  assert (Hgone : instance_id ∉ Legacy.id <$> Legacy.taby_instances
                    (Legacy.delete_where (λ r, Legacy.id r = instance_id) c)).
  { simpl. intros [x [-> [Hne _]%list_elem_of_filter]]%list_elem_of_fmap.
    by apply Hne. }
  destruct (Legacy.kill w (Legacy.pid r)); simpl; intros Hst; try done;
    (split; [done|]; split; [done|]);
    intros w'; by rewrite legacy_find_none.
Qed.

Lemma legacy_stopped_is_gone_witness :
  let c := (Legacy.start_next (Legacy.calm 100 4001)
              (Legacy.fresh Legacy.default_settings three_urls)).2 in
  let c' := (Legacy.stop_taby (Legacy.calm 101 0) 0 c).2 in
  0 ∈ Legacy.id <$> Legacy.taby_instances c ∧
  (0 ∉ Legacy.id <$> Legacy.taby_instances c') ∧
  ∀ w', Legacy.stop_taby w' 0 c' = (Some false, c').
Proof.
  apply (legacy_stopped_is_gone (Legacy.calm 101 0) 0
    (Legacy.start_next (Legacy.calm 100 4001)
       (Legacy.fresh Legacy.default_settings three_urls)).2).
  reflexivity.
Defined.

Lemma legacy_mark_rows (probe : Z → kill_result) (t : list Legacy.row) :
  (∀ r, r ∈ t → Legacy.state r = Legacy.Running →
        probe (Legacy.pid r) ≠ KillFailed) →
  (Legacy.mark_rows probe t).1 = true ∧
  length (Legacy.mark_rows probe t).2 = length t ∧
  Legacy.id <$> (Legacy.mark_rows probe t).2 = Legacy.id <$> t ∧
  filter (λ r, ¬ Legacy.state r = Legacy.Dead) (Legacy.mark_rows probe t).2
    = filter (still_running probe) t.
Proof.
  induction t as [|r t IH]; intros Hok; [done|].
  destruct IH as (IH1 & IH2 & IH3 & IH4).
  { intros x Hx. apply Hok. by right. }
  assert (Hr : Legacy.state r = Legacy.Running →
               probe (Legacy.pid r) ≠ KillFailed) by (apply Hok; by left).
  cbn [Legacy.mark_rows].
  destruct (Legacy.mark_rows probe t) as [ok t'] eqn:Hm.
  cbn [fst snd] in IH1, IH2, IH3, IH4.
  rewrite (filter_cons (still_running probe)).
  destruct (decide (Legacy.state r = Legacy.Running)) as [Hrun|Hdead].
  - specialize (Hr Hrun).
    destruct (probe (Legacy.pid r)) eqn:Hp; [| |done]; cbn [fst snd].
    + rewrite decide_True by (split; [done|by rewrite Hp]).
      rewrite filter_cons_True by (by rewrite Hrun).
      rewrite !fmap_cons, IH3, IH4. simpl. by rewrite IH2.
    + rewrite decide_False by (intros [_ Hn]; by rewrite Hp in Hn).
      rewrite filter_cons_False by (intros Hn; by apply Hn).
      rewrite !fmap_cons, IH3, IH4. simpl. by rewrite IH2.
  - cbn [fst snd]. rewrite decide_False by (by intros [? _]).
    rewrite filter_cons_False
      by (intros Hn; apply Hn; by destruct (Legacy.state r)).
    rewrite !fmap_cons, IH3, IH4. simpl. by rewrite IH2.
Qed.

(** X24.  In the stand-alone script a [list] command, when no probe
    raises anything but [ProcessLookupError], deletes nothing: it keeps
    every row and its id, and marks those it finds dead.  A [clean]
    command after it leaves exactly the rows that were [Running] and whose
    process the probe did not report gone, unchanged and in order. *)
Theorem legacy_list_then_clean (probe : Z → kill_result)
    (c : Legacy.controller) :
  (∀ r, r ∈ Legacy.taby_instances c → Legacy.state r = Legacy.Running →
        probe (Legacy.pid r) ≠ KillFailed) →
  let c1 := (Legacy.update_statuses probe c).2 in
  (Legacy.update_statuses probe c).1 = true ∧
  Legacy.id <$> Legacy.taby_instances c1 = Legacy.id <$> Legacy.taby_instances c ∧
  Legacy.taby_instances (Legacy.clean c1)
    = filter (still_running probe) (Legacy.taby_instances c) ∧
  Legacy.urls_queue (Legacy.clean c1) = Legacy.urls_queue c.
Proof.
  intros Hok.
  destruct (legacy_mark_rows probe (Legacy.taby_instances c) Hok)
    as (H1 & H2 & H3 & H4).
  unfold Legacy.update_statuses, Legacy.clean, Legacy.delete_where.
  destruct (Legacy.mark_rows probe (Legacy.taby_instances c)) as [ok t'].
  simpl in *. done.
Qed.

Lemma legacy_list_then_clean_witness :
  let c := Legacy.state_of
             (Legacy.run false
                [Legacy.calm 100 4001; Legacy.calm 101 4002;
                 Legacy.calm 102 4003] all_alive []
                (Legacy.fresh Legacy.default_settings three_urls)) in
  let c1 := (Legacy.update_statuses first_died c).2 in
  (Legacy.update_statuses first_died c).1 = true ∧
  Legacy.id <$> Legacy.taby_instances c1 = Legacy.id <$> Legacy.taby_instances c ∧
  Legacy.taby_instances (Legacy.clean c1)
    = filter (still_running first_died) (Legacy.taby_instances c) ∧
  Legacy.urls_queue (Legacy.clean c1) = Legacy.urls_queue c.
Proof.
  apply (legacy_list_then_clean first_died
    (Legacy.state_of
       (Legacy.run false
          [Legacy.calm 100 4001; Legacy.calm 101 4002;
           Legacy.calm 102 4003] all_alive []
          (Legacy.fresh Legacy.default_settings three_urls)))).
  intros r _ _. unfold first_died. by destruct (decide _).
Defined.

(** * The command line of the stand-alone script *)

Lemma legacy_override_keeps (st : gmap string LegacyArgs.value)
    (kv : string * LegacyArgs.value) :
  kv.1 ≠ "taby_script"%string →
  dom (LegacyArgs.override st kv) = dom st ∧
  LegacyArgs.override st kv !! "taby_script"%string
    = st !! "taby_script"%string ∧
  (∀ k, st !! k ≠ Some (LegacyArgs.VInt 0) →
        LegacyArgs.override st kv !! k ≠ Some (LegacyArgs.VInt 0)).
Proof.
  intros Hne. unfold LegacyArgs.override.
  destruct (LegacyArgs.truthy kv.2) eqn:Ht; simpl; [|done].
  case_bool_decide as Hk; [|done]. split_and!.
  - rewrite dom_insert_L. apply subseteq_union_1_L.
    by apply singleton_subseteq_l.
  - by rewrite lookup_insert_ne.
  - intros k Hk0. destruct (decide (kv.1 = k)) as [<-|Hkk].
    + rewrite lookup_insert_eq. intros [= Heq]. by rewrite Heq in Ht.
    + by rewrite lookup_insert_ne.
Qed.

Lemma legacy_apply_args_keeps (args : list (string * LegacyArgs.value))
    (st : gmap string LegacyArgs.value) :
  Forall (λ kv, kv.1 ≠ "taby_script"%string) args →
  dom (LegacyArgs.apply_args args st) = dom st ∧
  LegacyArgs.apply_args args st !! "taby_script"%string
    = st !! "taby_script"%string ∧
  ((∀ k, st !! k ≠ Some (LegacyArgs.VInt 0)) →
   ∀ k, LegacyArgs.apply_args args st !! k ≠ Some (LegacyArgs.VInt 0)).
Proof.
  intros Hargs. revert st.
  induction Hargs as [|kv args Hkv _ IH]; intros st; [done|].
  simpl. destruct (legacy_override_keeps st kv Hkv) as (Hd & Hs & Hz).
  destruct (IH (LegacyArgs.override st kv)) as (-> & -> & Hz').
  split_and!; try done. intros Hst. apply Hz'. intros k. apply Hz, Hst.
Qed.

(** X25.  Whatever the command line of the stand-alone script gives,
    the settings keep the keys of [DEFAULT_SETTINGS]; the path of the
    script stays ["./taby.sh"], because [--script] is stored under
    [script] and the setting is [taby_script]; and no setting becomes 0,
    because a value of 0 counts as not given. *)
Theorem legacy_script_option_ignored (vals : list LegacyArgs.value) :
  dom (LegacyArgs.parsed vals) = dom LegacyArgs.DEFAULT_SETTINGS ∧
  LegacyArgs.parsed vals !! "taby_script"%string
    = Some (LegacyArgs.VStr "./taby.sh") ∧
  ∀ k, LegacyArgs.parsed vals !! k ≠ Some (LegacyArgs.VInt 0).
Proof.
  unfold LegacyArgs.parsed.
  destruct (legacy_apply_args_keeps
              (zip LegacyArgs.parser_dests vals) LegacyArgs.DEFAULT_SETTINGS)
    as (Hd & Hs & Hz).
  - apply list.Forall_forall. intros [k v] Hin Heq. simpl in Heq. subst k.
    apply elem_of_zip_l in Hin. simpl in Hin.
    unfold LegacyArgs.parser_dests in Hin.
    repeat (apply elem_of_cons in Hin as [Hin|Hin]; [done|]).
    by apply elem_of_nil in Hin.
  - split_and!; try done. apply Hz. intros k.
    unfold LegacyArgs.DEFAULT_SETTINGS.
    destruct (LegacyArgs.DEFAULT_SETTINGS !! k) as [v|] eqn:Hk;
      unfold LegacyArgs.DEFAULT_SETTINGS in Hk; rewrite Hk; [|done].
    apply elem_of_list_to_map_2 in Hk.
    repeat (apply elem_of_cons in Hk as [Hk|Hk]; [by injection Hk as -> ->|]).
    by apply elem_of_nil in Hk.
Qed.

(** The script given with [--script] is not the one that will be run,
    and a limit of 0 is taken as no limit given. *)
Example legacy_script_and_zero :
  let vals := [LegacyArgs.VNone; LegacyArgs.VNone;
               LegacyArgs.VStr "/opt/other.sh"; LegacyArgs.VBool false;
               LegacyArgs.VInt 9000; LegacyArgs.VNone; LegacyArgs.VNone;
               LegacyArgs.VInt 0; LegacyArgs.VNone; LegacyArgs.VNone] in
  LegacyArgs.parsed vals !! "taby_script"%string
    = Some (LegacyArgs.VStr "./taby.sh") ∧
  LegacyArgs.parsed vals !! "script"%string = None ∧
  LegacyArgs.parsed vals !! "rtsp_base_port"%string
    = Some (LegacyArgs.VInt 9000) ∧
  LegacyArgs.parsed vals !! "max_concurrent"%string
    = Some (LegacyArgs.VInt 5).
Proof. by vm_compute. Qed.

(** * The queue at start-up *)

Lemma queue_urls_order (urls : list string) (c : controller) :
  q_url <$> queue (foldl (λ c url, (add_to_queue url c).2) c urls) =
    (q_url <$> queue c) ++ filter (λ url, valid_url url = true) urls.
Proof.
  revert c. induction urls as [|url urls IH]; intros c; simpl.
  - by rewrite app_nil_r.
  - rewrite IH, add_to_queue_urls, filter_cons, <- app_assoc.
    by destruct (valid_url url); case_decide.
Qed.

(** X26.  At start-up the pending items loaded from the store come
    first, in the order of their ids, and behind them the URLs of the
    command line that start with ["http://"] or ["https://"], in the
    order given; the other URLs are dropped. *)
Theorem init_queue_order (s : settings) (d : store) (urls : list string)
    (probe : Z → kill_result) :
  q_url <$> queue (init s d urls probe) =
    (q_url <$> queue_table d) ++ filter (λ url, valid_url url = true) urls.
Proof.
  unfold init.
  destruct (clean_instances_frame probe (init_loaded s d urls))
    as (_ & _ & -> & _).
  unfold init_loaded, init_queue. cbn [queue].
  by rewrite queue_urls_order.
Qed.
